(** * aws-alb-to-loki: the log ingestion pipeline of [main.js]

    A shallow embedding of [main.js] (an Express listener that receives S3
    creation events through SNS, fetches the ALB log object, parses each
    line with one regular expression and posts it to Loki), and theorems
    about it.

    Conventions.
    - A JavaScript string is a list of UTF-16 code units ([jsstring]).
    - A value produced by [JSON.parse] is a [value]; property access [get]
      throws a [TypeError] on [undefined] and [null], as in JavaScript.
    - Built-ins and external collaborators whose code is not part of the
      repository ([JSON.parse], [new Date(v)], [Date.now()], the S3 client,
      [ungzip], [request]) are fields of an environment [Env].
    - An [async] function is a program of the free monad [prog]; the
      operations marked [is_await] are its suspension points. *)

From Stdlib Require Import String Ascii DecimalString List Sorted ZArith NArith Bool
  Arith Lia.
Import ListNotations.

Set Implicit Arguments.
Unset Strict Implicit.

(* ===================================================================== *)
(** ** JavaScript strings *)
(* ===================================================================== *)

Module JsString.

(** A UTF-16 code unit. *)
Definition char := N.

Definition jsstring := list char.

Definition char_eqb (a b : char) : bool := N.eqb a b.

Fixpoint eqb (s t : jsstring) : bool :=
  match s, t with
  | [], [] => true
  | a :: s', b :: t' => char_eqb a b && eqb s' t'
  | _, _ => false
  end.

(** An ASCII literal as a JavaScript string. *)
Fixpoint js (s : string) : jsstring :=
  match s with
  | EmptyString => []
  | String a s' => N_of_ascii a :: js s'
  end.

Definition NL : char := 10%N.         (* \n *)
Definition DQUOTE : char := 34%N.     (* the double quote *)
Definition BACKSLASH : char := 92%N.  (* \ *)
Definition SP : char := 32%N.

(** [s.split('\n')]: the pieces between the separators; never empty. *)
Fixpoint split_nl (s : jsstring) : list jsstring :=
  match s with
  | [] => [[]]
  | c :: s' =>
      if char_eqb c NL then [] :: split_nl s'
      else match split_nl s' with
           | [] => [[c]]
           | piece :: pieces => (c :: piece) :: pieces
           end
  end.

(** [a.pop()] as used for its effect on the array: the last element is
    removed; an empty array stays empty. *)
Definition pop (A : Type) (a : list A) : list A := removelast a.

End JsString.
Import JsString.

(* ===================================================================== *)
(** ** Regular expressions, as far as the pattern of [sendToLoki] goes *)
(* ===================================================================== *)

Module Regex.

(** Character classes of the pattern. *)

(** [.] without the [s] flag: any code unit but a line terminator. *)
Definition dot (c : char) : bool :=
  negb (N.eqb c 10 || N.eqb c 13 || N.eqb c 8232 || N.eqb c 8233)%N.

(** [\s]: WhiteSpace and LineTerminator of ECMAScript. *)
Definition space (c : char) : bool :=
  ((9 <=? c) && (c <=? 13) || N.eqb c 32 || N.eqb c 160 || N.eqb c 5760
   || (8192 <=? c) && (c <=? 8202) || N.eqb c 8232 || N.eqb c 8233
   || N.eqb c 8239 || N.eqb c 8287 || N.eqb c 12288 || N.eqb c 65279)%N.

(** [[0-9]] *)
Definition digit (c : char) : bool := ((48 <=? c) && (c <=? 57))%N.

(** A literal character. *)
Definition lit (a : char) (c : char) : bool := N.eqb a c.

Inductive regex : Type :=
| Eps                                   (* the empty pattern *)
| Bol                                   (* ^ *)
| Chr (p : char -> bool)                (* one character of a class *)
| LazyStar (p : char -> bool)           (* p*? *)
| GreedyPlus (p : char -> bool)         (* p+ *)
| Group (name : string) (r : regex)     (* (?<name>r) *)
| Seq (r1 r2 : regex).                  (* r1r2 *)

(** The state of a match: the index reached in the input and what is
    left of the input from there; the captures closed so far, in order. *)
Definition captures := list jsstring.
Definition cont (R : Type) := nat -> jsstring -> captures -> option R.

(** [p*?] followed by [k]: the continuation is tried before one more
    character is taken. *)
Fixpoint lazy_star (R : Type) (p : char -> bool) (k : cont R)
    (pos : nat) (s : jsstring) (caps : captures) : option R :=
  match k pos s caps with
  | Some r => Some r
  | None =>
      match s with
      | c :: s' => if p c then lazy_star p k (S pos) s' caps else None
      | [] => None
      end
  end.

(** [p+] followed by [k]: one character is taken, then as many more as
    possible before the continuation is tried. *)
Fixpoint greedy_plus (R : Type) (p : char -> bool) (k : cont R)
    (pos : nat) (s : jsstring) (caps : captures) : option R :=
  match s with
  | c :: s' =>
      if p c then
        match greedy_plus p k (S pos) s' caps with
        | Some r => Some r
        | None => k (S pos) s' caps
        end
      else None
  | [] => None
  end.

(** The backtracking matcher, in continuation-passing style. *)
Fixpoint m (R : Type) (r : regex) (k : cont R) : cont R :=
  match r with
  | Eps => k
  | Bol => fun pos s caps => if Nat.eqb pos 0 then k pos s caps else None
  | Chr p => fun pos s caps =>
      match s with
      | c :: s' => if p c then k (S pos) s' caps else None
      | [] => None
      end
  | LazyStar p => lazy_star p k
  | GreedyPlus p => greedy_plus p k
  | Group _ r' => fun pos s caps =>
      m r' (fun pos' s' caps' => k pos' s' (caps' ++ [firstn (pos' - pos) s]))
        pos s caps
  | Seq r1 r2 => m r1 (m r2 k)
  end.

(** The number of capture groups of a pattern. *)
Fixpoint ngroups (r : regex) : nat :=
  match r with
  | Group _ r' => S (ngroups r')
  | Seq r1 r2 => ngroups r1 + ngroups r2
  | _ => 0
  end.

(** The names of the groups, in order. *)
Fixpoint group_names (r : regex) : list string :=
  match r with
  | Group n r' => n :: group_names r'
  | Seq r1 r2 => group_names r1 ++ group_names r2
  | _ => []
  end.

(** The array returned by a successful match: the matched text, then the
    captures. *)
Definition match_at (r : regex) (pos : nat) (s : jsstring)
    : option (list jsstring) :=
  m r (fun pos' _ caps => Some (firstn (pos' - pos) s :: caps)) pos s [].

(** [RegExpBuiltinExec] for a pattern without the [g] and [y] flags: the
    match is tried at every index from 0 on. *)
Fixpoint exec_from (r : regex) (pos : nat) (s : jsstring)
    : option (list jsstring) :=
  match match_at r pos s with
  | Some a => Some a
  | None =>
      match s with
      | [] => None
      | _ :: s' => exec_from r (S pos) s'
      end
  end.

(** [s.match(r)]: [None] is [null]. *)
Definition str_match (s : jsstring) (r : regex) : option (list jsstring) :=
  exec_from r 0 s.

(** Concatenation of a list of patterns. *)
Fixpoint seq (rs : list regex) : regex :=
  match rs with
  | [] => Eps
  | r :: rs' => Seq r (seq rs')
  end.

End Regex.
Import Regex.

(* ===================================================================== *)
(** ** The parser of [sendToLoki] *)
(* ===================================================================== *)

Module Parser.

(** [(?<name>.*?)] *)
Definition field (name : string) : regex := Group name (LazyStar dot).
(** [\s+] *)
Definition ws : regex := GreedyPlus space.
(** the double quote *)
Definition quote : regex := Chr (lit DQUOTE).
(** [-] *)
Definition dash : regex := Chr (lit 45%N).
(** [(?<name>.*?)] between double quotes *)
Definition quoted (name : string) : regex :=
  Seq quote (Seq (field name) quote).
(** [-] between double quotes *)
Definition quoted_dash : regex := Seq quote (Seq dash quote).

(** The pattern [re] of [sendToLoki], piece by piece. *)
Definition re : regex :=
  seq [ Bol;
        field "type"; ws;
        field "time"; ws;
        field "elb"; ws;
        field "client"; ws;
        field "target"; ws;
        field "req_proc_time"; ws;
        field "target_proc_time"; ws;
        field "resp_proc_time"; ws;
        field "elb_status"; ws;
        field "target_status"; ws;
        field "recv_bytes"; ws;
        field "sent_bytes"; ws;
        quoted "request"; ws;
        quoted "user_agent"; ws;
        dash; ws; dash; ws;
        field "target_group_arn"; ws;
        quoted "trace_id"; ws;
        LazyStar dot; Group "match_priority" (GreedyPlus digit); ws;
        field "req_creation_time"; ws;
        quoted "action_executed"; ws;
        LazyStar dot; quoted_dash; ws; quoted_dash; ws;
        quoted "target_list"; ws;
        quoted "status_code"; ws ].

(** The keys that the [forEach] of [sendToLoki] walks through. *)
Definition keys : list string :=
  [ "type"; "time"; "elb"; "client"; "target"; "req_proc_time";
    "target_proc_time"; "resp_proc_time"; "elb_status"; "target_status";
    "recv_bytes"; "sent_bytes"; "request"; "user_agent";
    "target_group_arn"; "trace_id"; "match_priority"; "req_creation_time";
    "action_executed"; "target_list"; "status_code" ]%string.

(** [const logArray = logData.split('\n'); logArray.pop();] *)
Definition logArray (logData : jsstring) : list jsstring :=
  pop (split_nl logData).

End Parser.
Import Parser.

(* ===================================================================== *)
(** ** JavaScript values, errors and objects *)
(* ===================================================================== *)

Module Js.

(** The values that [JSON.parse] produces, and [undefined]. Numbers are
    the integer-valued ones. *)
Local Unset Elimination Schemes.
Inductive value : Type :=
| VUndefined
| VNull
| VBool (b : bool)
| VNum (z : Z)
| VStr (s : jsstring)
| VArr (items : list value)
| VObj (fields : list (jsstring * value)).
Local Set Elimination Schemes.

Inductive error : Type :=
| TypeError
| SyntaxError
| ReferenceError (name : string)
| External (code : N).          (* an error of a collaborator *)

Inductive result (A : Type) : Type :=
| Ok (a : A)
| Throw (e : error).
Arguments Throw {A} e.

Fixpoint lookup (A : Type) (k : jsstring) (fs : list (jsstring * A))
    : option A :=
  match fs with
  | [] => None
  | (k', v) :: fs' => if JsString.eqb k k' then Some v else lookup k fs'
  end.

(** [v.k] (and [v[k]]) for the property names that [main.js] reads; none
    of them is defined on the prototype of a primitive or of an array. *)
Definition get (v : value) (k : string) : result value :=
  match v with
  | VUndefined | VNull => Throw TypeError
  | VObj fs =>
      match lookup (js k) fs with
      | Some x => Ok x
      | None => Ok VUndefined
      end
  | _ => Ok VUndefined
  end.

(** [v === 'literal'] *)
Definition strict_eq_str (v : value) (lit : string) : bool :=
  match v with
  | VStr s => JsString.eqb s (js lit)
  | _ => false
  end.

(** [obj[k] = v] on an object whose keys are not array indices: an own
    property keeps its place, a new one goes last. *)
Fixpoint set (A : Type) (obj : list (jsstring * A)) (k : jsstring) (v : A)
    : list (jsstring * A) :=
  match obj with
  | [] => [(k, v)]
  | (k', v') :: obj' =>
      if JsString.eqb k k' then (k', v) :: obj' else (k', v') :: set obj' k v
  end.

End Js.
Import Js.

(* ===================================================================== *)
(** ** [JSON.stringify] of an object of strings *)
(* ===================================================================== *)

Module Json.

Definition hex_digit (n : N) : char :=
  if (n <? 10)%N then (48 + n)%N else (87 + n)%N.

(** [\uXXXX], lowercase. *)
Definition unicode_escape (c : char) : jsstring :=
  [ BACKSLASH; 117%N;
    hex_digit (c / 4096); hex_digit ((c / 256) mod 16);
    hex_digit ((c / 16) mod 16); hex_digit (c mod 16) ]%N.

Definition is_high_surrogate (c : char) : bool :=
  ((55296 <=? c) && (c <=? 56319))%N.
Definition is_low_surrogate (c : char) : bool :=
  ((56320 <=? c) && (c <=? 57343))%N.

(** The body of [QuoteJSONString] (well-formed [JSON.stringify]): the
    string is walked by code points; a surrogate pair is kept, a lone
    surrogate is escaped. *)
Fixpoint quote_chars (s : jsstring) : jsstring :=
  match s with
  | [] => []
  | c :: s' =>
      if N.eqb c 8 then BACKSLASH :: 98%N :: quote_chars s'
      else if N.eqb c 9 then BACKSLASH :: 116%N :: quote_chars s'
      else if N.eqb c 10 then BACKSLASH :: 110%N :: quote_chars s'
      else if N.eqb c 12 then BACKSLASH :: 102%N :: quote_chars s'
      else if N.eqb c 13 then BACKSLASH :: 114%N :: quote_chars s'
      else if N.eqb c DQUOTE then BACKSLASH :: DQUOTE :: quote_chars s'
      else if N.eqb c BACKSLASH then BACKSLASH :: BACKSLASH :: quote_chars s'
      else if (c <? 32)%N then unicode_escape c ++ quote_chars s'
      else if is_high_surrogate c then
        match s' with
        | d :: s'' =>
            if is_low_surrogate d then c :: d :: quote_chars s''
            else unicode_escape c ++ quote_chars s'
        | [] => unicode_escape c
        end
      else if is_low_surrogate c then unicode_escape c ++ quote_chars s'
      else c :: quote_chars s'
  end.

Definition quote (s : jsstring) : jsstring :=
  DQUOTE :: quote_chars s ++ [DQUOTE].

(** A property of an object whose values come out of a match array: a
    string, or [undefined] ([None]). *)
Definition object := list (jsstring * option jsstring).

(** One member [key:value] of the serialization. *)
Definition member (k v : jsstring) : jsstring := quote k ++ 58%N :: quote v.

(** The members of an object; a property that is [undefined] is left
    out. *)
Fixpoint members (obj : object) : list jsstring :=
  match obj with
  | [] => []
  | (k, Some v) :: obj' => member k v :: members obj'
  | (_, None) :: obj' => members obj'
  end.

Fixpoint join (sep : char) (l : list jsstring) : jsstring :=
  match l with
  | [] => []
  | [x] => x
  | x :: l' => x ++ sep :: join sep l'
  end.

(** [JSON.stringify(obj)] without indentation. *)
Definition JSON_stringify (obj : object) : jsstring :=
  123%N :: join 44%N (members obj) ++ [125%N].

End Json.
Import Json.

(* ===================================================================== *)
(** ** [async] functions as programs *)
(* ===================================================================== *)

Module Async.

Definition bytes := list N.

(** What [console.log] is given. *)
Inductive logmsg : Type :=
| LogErr (err : error)                  (* console.log(err) *)
| LogNoLogData (name key : value)       (* `Couldn't get log data for ...` *)
| LogLoggingError (err : error).        (* `Logging error: ${err}` *)

(** The operations of the pipeline on its surroundings, with the type of
    what each gives back. *)
Inductive operation : Type -> Type :=
| GetLastUpdated : operation Z                      (* lastUpdated.getTime() *)
| SetLastUpdated (t : Z) : operation unit           (* lastUpdated = ... *)
| DateNow : operation Z                             (* Date.now() *)
| ConsoleLog (msg : logmsg) : operation unit
| S3GetObject (bucket key : value) : operation (result bytes)
                                      (* await s3.getObject(..).promise() *)
| Ungzip (body : bytes) : operation (result jsstring)
                                      (* (await ungzip(body)).toString() *)
| Request (ts : Z) (line : jsstring) : operation (result unit)
                                      (* await request(..) *)
| Yield : operation unit.             (* the await of a settled promise *)

(** The operations at which an [async] function is suspended. *)
Definition is_await (X : Type) (op : operation X) : bool :=
  match op with
  | S3GetObject _ _ | Ungzip _ | Request _ _ | Yield => true
  | _ => false
  end.

Inductive prog (A : Type) : Type :=
| Ret (a : A)
| Raise (e : error)
| Op (X : Type) (op : operation X) (k : X -> prog A).
Arguments Raise {A} e.

Fixpoint bind (A B : Type) (p : prog A) (f : A -> prog B) : prog B :=
  match p with
  | Ret a => f a
  | Raise e => Raise e
  | Op op k => Op op (fun x => bind (k x) f)
  end.

(** [try { p } catch (err) { h err }] *)
Fixpoint try_catch (A : Type) (p : prog A) (h : error -> prog A) : prog A :=
  match p with
  | Ret a => Ret a
  | Raise e => h e
  | Op op k => Op op (fun x => try_catch (k x) h)
  end.

Definition perform (X : Type) (op : operation X) : prog X := Op op (@Ret X).

Definition lift (A : Type) (r : result A) : prog A :=
  match r with
  | Ok a => Ret a
  | Throw e => Raise e
  end.

(** [await op]: a rejected promise throws at the [await]. *)
Definition await (A : Type) (op : operation (result A)) : prog A :=
  Op op (@lift A).

(** [await f(..)] for an [async] function [f] of this file: the caller
    goes on, or throws, one turn after [f] has settled. *)
Definition await_call (A : Type) (p : prog A) : prog A :=
  bind (try_catch (bind p (fun a => Ret (Ok a))) (fun e => Ret (Throw e)))
       (fun r => bind (perform Yield) (fun _ => lift r)).

End Async.
Import Async.

Declare Scope prog_scope.
Delimit Scope prog_scope with prog.
Notation "x <- p ;; q" := (bind p (fun x => q))
  (at level 61, p at next level, right associativity) : prog_scope.
Notation "p ;; q" := (bind p (fun _ => q))
  (at level 61, right associativity) : prog_scope.
Open Scope prog_scope.

(* ===================================================================== *)
(** ** The functions of [main.js] *)
(* ===================================================================== *)

(** Built-ins and collaborators. The functions that answer an operation
    take the step of the run at which the operation is performed, so that
    the clock, the storage and the endpoint may change with time. *)
Record Env : Type := {
  JSON_parse : value -> result value;            (* JSON.parse(v) *)
  Date_new : value -> option Z;                  (* new Date(v).getTime(); None is NaN *)
  Date_now : nat -> Z;                           (* Date.now() *)
  s3_getObject : nat -> value -> value -> result bytes;
  ungzip : bytes -> result jsstring;
  request : nat -> Z -> jsstring -> result unit
}.

Module Main.

(** [groups[keyIndex]] where [groups] is the result of [line.match(re)]:
    reading a property of [null] throws. *)
Definition groups_at (groups : option (list jsstring)) (keyIndex : nat)
    : result (option jsstring) :=
  match groups with
  | None => Throw TypeError
  | Some a => Ok (nth_error a keyIndex)
  end.

(** The [forEach] over the keys: [jsonLogObj[key] = groups[keyIndex++]]. *)
Fixpoint fill (groups : option (list jsstring)) (ks : list string)
    (keyIndex : nat) (jsonLogObj : object) : result object :=
  match ks with
  | [] => Ok jsonLogObj
  | key :: ks' =>
      match groups_at groups keyIndex with
      | Throw e => Throw e
      | Ok v => fill groups ks' (S keyIndex) (set jsonLogObj (js key) v)
      end
  end.

(** Lines 105-115: the object built from one line. *)
Definition jsonLogObj (line : jsstring) : result object :=
  fill (str_match line re) keys 1 [].

(** Lines 125-150: the request for one serialized line; a failure of the
    request is logged and the loop goes on. *)
Definition post_line (jsonLogLine : jsstring) : prog unit :=
  try_catch
    (now <- perform DateNow ;;
     await (Request (now * 1000000) jsonLogLine))
    (fun err => perform (ConsoleLog (LogLoggingError err))).

(** Line 116: [const jsonLogLine = JSON.stringify(jsonLogObj)]. *)
Definition jsonLogLine (line : jsstring) : result jsstring :=
  match jsonLogObj line with
  | Ok obj => Ok (JSON_stringify obj)
  | Throw e => Throw e
  end.

(** The [for] loop of [sendToLoki]. *)
Fixpoint send_lines (lines : list jsstring) : prog unit :=
  match lines with
  | [] => Ret tt
  | line :: rest =>
      payload <- lift (jsonLogLine line) ;;
      post_line payload ;;
      send_lines rest
  end.

Definition sendToLoki (logData : jsstring) : prog unit :=
  send_lines (logArray logData).

(** The argument of [fetchLogObject]. *)
Record details : Type := { bucket : value; logObject : value }.

(** [null] is [None]. *)
Definition fetchLogObject (d : details) : prog (option jsstring) :=
  Bucket <- lift (get (bucket d) "name") ;;
  Key <- lift (get (logObject d) "key") ;;
  try_catch
    (body <- await (S3GetObject Bucket Key) ;;
     data <- await (Ungzip body) ;;
     Ret (Some data))
    (fun err => perform (ConsoleLog (LogErr err)) ;; Ret None).

(** [!logData] *)
Definition falsy (logData : option jsstring) : bool :=
  match logData with
  | None | Some [] => true
  | Some (_ :: _) => false
  end.

(** The string that a truthy [logData] is. *)
Definition text (logData : option jsstring) : jsstring :=
  match logData with
  | Some data => data
  | None => []
  end.

(** The body of the [if] on the event name, lines 164-175. *)
Definition on_put (snsMessage s3 : value) : prog unit :=
  b <- lift (get s3 "bucket") ;;
  o <- lift (get s3 "object") ;;
  logData <- await_call (fetchLogObject {| bucket := b; logObject := o |}) ;;
  if falsy logData then
    mb <- lift (get snsMessage "bucket") ;;
    name <- lift (get mb "name") ;;
    mo <- lift (get snsMessage "object") ;;
    key <- lift (get mo "Key") ;;
    perform (ConsoleLog (LogNoLogData name key))
  else await_call (sendToLoki (text logData)).

(** The body of the [if] on the event time, lines 163-176. *)
Definition accepted (snsMessage record : value) (eventTime : Z) : prog unit :=
  s3 <- lift (get record "s3") ;;
  name <- lift (get record "eventName") ;;
  (if strict_eq_str name "ObjectCreated:Put"
   then on_put snsMessage s3 else Ret tt) ;;
  perform (SetLastUpdated eventTime).

(** The callback of [snsMessage.Records.forEach], lines 160-178. A
    comparison with [NaN] is false. *)
Definition callback (E : Env) (snsMessage record : value) : prog unit :=
  et <- lift (get record "eventTime") ;;
  lastUpdated <- perform GetLastUpdated ;;
  match Date_new E et with
  | Some eventTime =>
      if (lastUpdated <? eventTime)%Z
      then accepted snsMessage record eventTime
      else Ret tt
  | None => Ret tt
  end.

(** Lines 156-160: the two [JSON.parse] and the array that [forEach] is
    called on. *)
Definition envelope (E : Env) (body : value) : result (value * list value) :=
  match JSON_parse E body with
  | Throw e => Throw e
  | Ok newBody =>
      match get newBody "Message" with
      | Throw e => Throw e
      | Ok message =>
          match JSON_parse E message with
          | Throw e => Throw e
          | Ok snsMessage =>
              match get snsMessage "Records" with
              | Throw e => Throw e
              | Ok (VArr records) => Ok (snsMessage, records)
              | Ok _ => Throw TypeError
              end
          end
      end
  end.

End Main.
Import Main.

(* ===================================================================== *)
(** ** Running the programs *)
(* ===================================================================== *)

Module Run.

(** The state of the process: the module-level [lastUpdated] (always a
    valid date, see [callback]) and the number of operations performed
    so far. *)
Record World : Type := { lastUpdated : Z; steps : nat }.

(** What an observer of the process sees. *)
Inductive event : Type :=
| ReadWatermark
| WriteWatermark (t : Z)
| Logged (msg : logmsg)
| Fetch (bucket key : value)            (* s3.getObject is called *)
| Post (ts : Z) (payload : jsstring)    (* request is called *)
| SendStatus (code : Z).                (* res.sendStatus *)

Definition tick (w : World) : World :=
  {| lastUpdated := lastUpdated w; steps := S (steps w) |}.

(** One operation: its answer, the state after it and what is seen of
    it. *)
Definition answer (E : Env) (X : Type) (op : operation X) (w : World)
    : X * World * list event :=
  match op in operation X return X * World * list event with
  | GetLastUpdated => (lastUpdated w, tick w, [ReadWatermark])
  | SetLastUpdated t =>
      (tt, {| lastUpdated := t; steps := S (steps w) |}, [WriteWatermark t])
  | DateNow => (Date_now E (steps w), tick w, [])
  | ConsoleLog msg => (tt, tick w, [Logged msg])
  | S3GetObject b k => (s3_getObject E (steps w) b k, tick w, [Fetch b k])
  | Ungzip body => (ungzip E body, tick w, [])
  | Request ts line => (request E (steps w) ts line, tick w, [Post ts line])
  | Yield => (tt, tick w, [])
  end.

(** A program run to its end, every suspension resumed at once: what
    happens to an [async] call that nothing else interleaves with. *)
Fixpoint run (E : Env) (A : Type) (p : prog A) (w : World)
    : result A * World * list event :=
  match p with
  | Ret a => (Ok a, w, [])
  | Raise e => (Throw e, w, [])
  | Op op k =>
      let '(x, w1, t1) := answer E op w in
      let '(r, w2, t2) := run E (k x) w1 in
      (r, w2, t1 ++ t2)
  end.

(** Where an [async] call stands when control goes back to its caller. *)
Inductive status (A : Type) : Type :=
| Settled (r : result A)
| Suspended (rest : prog A).

(** A program run up to its next suspension: the operation awaited is
    started, and the rest waits for a later turn of the event loop. *)
Fixpoint turn (E : Env) (A : Type) (p : prog A) (w : World)
    : status A * World * list event :=
  match p with
  | Ret a => (Settled (Ok a), w, [])
  | Raise e => (Settled (Throw e), w, [])
  | Op op k =>
      let '(x, w1, t1) := answer E op w in
      if is_await op then (Suspended (k x), w1, t1)
      else
        let '(st, w2, t2) := turn E (k x) w1 in
        (st, w2, t1 ++ t2)
  end.

(** The state of the server between two turns: the calls of the callback
    that are suspended, and the errors of those that were rejected
    (nothing handles them). *)
Record Server : Type := {
  world : World;
  pending : list (prog unit);
  unhandled : list error
}.

Definition file (st : status unit) (sv : Server) (w : World) : Server :=
  match st with
  | Settled (Ok _) =>
      {| world := w; pending := pending sv; unhandled := unhandled sv |}
  | Settled (Throw e) =>
      {| world := w; pending := pending sv; unhandled := unhandled sv ++ [e] |}
  | Suspended rest =>
      {| world := w; pending := pending sv ++ [rest]; unhandled := unhandled sv |}
  end.

(** [snsMessage.Records.forEach(async (record) => ...)]: each call of the
    callback runs up to its first suspension, then the next one starts. *)
Fixpoint forEach (E : Env) (snsMessage : value) (records : list value)
    (sv : Server) : Server * list event :=
  match records with
  | [] => (sv, [])
  | record :: rest =>
      let '(st, w1, t1) := turn E (callback E snsMessage record) (world sv) in
      let '(sv2, t2) := forEach E snsMessage rest (file st sv w1) in
      (sv2, t1 ++ t2)
  end.

(** The handler of [POST /], lines 155-182. It has no [await] of its own:
    it runs in one turn. When it throws, its promise is rejected and no
    response is sent. *)
Definition post_handler (E : Env) (body : value) (sv : Server)
    : result unit * Server * list event :=
  match envelope E body with
  | Throw e => (Throw e, sv, [])
  | Ok (snsMessage, records) =>
      let '(sv1, t1) := forEach E snsMessage records sv in
      (Ok tt, sv1, t1 ++ [SendStatus 200])
  end.



(** The operations on [lastUpdated]. *)
Definition touches_watermark (X : Type) (op : operation X) : bool :=
  match op with
  | GetLastUpdated | SetLastUpdated _ => true
  | _ => false
  end.

(** A program that has no operation on [lastUpdated]. *)
Inductive quiet (A : Type) : prog A -> Prop :=
| quiet_ret a : quiet (Ret a)
| quiet_raise e : quiet (Raise e)
| quiet_op X (op : operation X) (k : X -> prog A) :
    touches_watermark op = false ->
    (forall x, quiet (k x)) ->
    quiet (Op op k).

(** The observations *)
Definition fetches (t : list event) : list (value * value) :=
  flat_map (fun e => match e with Fetch b k => [(b, k)] | _ => [] end) t.
Definition posts (t : list event) : list (Z * jsstring) :=
  flat_map (fun e => match e with Post ts l => [(ts, l)] | _ => [] end) t.
Definition writes (t : list event) : list Z :=
  flat_map (fun e => match e with WriteWatermark z => [z] | _ => [] end) t.
Definition reads (t : list event) : nat :=
  List.length (filter (fun e => match e with ReadWatermark => true | _ => false end) t).
Definition statuses (t : list event) : list Z :=
  flat_map (fun e => match e with SendStatus c => [c] | _ => [] end) t.

End Run.
Import Run.

(* ===================================================================== *)
(** ** The top level of [main.js] *)
(* ===================================================================== *)

Module TopLevel.

Inductive expr : Type :=
| Ident (x : string)
| Member (e : expr) (p : string)        (* e.p *)
| Minus (e1 e2 : expr)                  (* e1 - e2 *)
| Divide (e1 e2 : expr).                (* e1 / e2 *)

(** The statements of the module, as far as the bindings and the
    listener go. The initializers ([require(..)], [new AWS.S3()],
    [Express()], [new Date()], [process.env.X]) and the calls on
    [snsListener] are taken to succeed. *)
Inductive stmt : Type :=
| Const (x : string)                    (* const x = ...; let x = ...; *)
| FunDecl (f : string)                  (* async function f(..) {..} *)
| Use                                   (* snsListener.use(parser.text()) *)
| Route                                 (* snsListener.post('/', handler) *)
| Listen                                (* snsListener.listen('3456', ..) *)
| Expression (e : expr).                (* an expression statement *)

(** What an expression of this kind evaluates to. *)
Inductive tvalue : Type := Undefined | Number | Object.

Fixpoint mem (x : string) (l : list string) : bool :=
  match l with
  | [] => false
  | y :: l' => if String.eqb x y then true else mem x l'
  end.

(** The names bound in every module of Node that [main.js] uses. *)
Definition globals : list string :=
  [ "require"; "process"; "console"; "Date"; "JSON" ]%string.

(** Function declarations are bound before the first statement runs. *)
Fixpoint hoisted (prog : list stmt) : list string :=
  match prog with
  | [] => []
  | FunDecl f :: rest => f :: hoisted rest
  | _ :: rest => hoisted rest
  end.

(** An identifier that resolves to no binding throws a
    [ReferenceError]; the left operand is evaluated first. *)
Fixpoint evaluate (scope : list string) (e : expr) : result tvalue :=
  match e with
  | Ident x => if mem x scope then Ok Object else Throw (ReferenceError x)
  | Member e' _ =>
      match evaluate scope e' with
      | Throw err => Throw err
      | Ok Undefined => Throw TypeError
      | Ok _ => Ok Undefined
      end
  | Minus e1 e2 | Divide e1 e2 =>
      match evaluate scope e1 with
      | Throw err => Throw err
      | Ok _ =>
          match evaluate scope e2 with
          | Throw err => Throw err
          | Ok _ => Ok Number
          end
      end
  end.

Record Process : Type := {
  scope : list string;
  routed : bool;        (* the handler of POST / is registered *)
  listening : bool      (* the listener is started *)
}.

(** The statements in order, up to the first one that throws. *)
Fixpoint exec (prog : list stmt) (p : Process) : result unit * Process :=
  match prog with
  | [] => (Ok tt, p)
  | s :: rest =>
      match s with
      | Const x =>
          exec rest {| scope := x :: scope p; routed := routed p;
                       listening := listening p |}
      | FunDecl _ | Use => exec rest p
      | Route =>
          exec rest {| scope := scope p; routed := true;
                       listening := listening p |}
      | Listen =>
          exec rest {| scope := scope p; routed := routed p;
                       listening := true |}
      | Expression e =>
          match evaluate (scope p) e with
          | Throw err => (Throw err, p)
          | Ok _ => exec rest p
          end
      end
  end.

(** Line 77: [logs-prod-us-central1.grafana.net/loki/api/v1/push]. The
    operators [-] and [/] associate to the left and [/] binds tighter. *)
Definition line77 : expr :=
  Minus (Minus (Minus (Ident "logs") (Ident "prod")) (Ident "us"))
    (Divide (Divide (Divide (Divide
       (Member (Member (Ident "central1") "grafana") "net")
       (Ident "loki")) (Ident "api")) (Ident "v1")) (Ident "push")).

(** Lines 59-186. *)
Definition main_js : list stmt :=
  [ Const "AWS"; Const "Express"; Const "parser"; Const "request";
    Const "ungzip";
    Const "s3"; Const "snsListener"; Use;
    Const "lastUpdated";
    Const "LOKI_USER"; Const "LOKI_PASSWORD"; Const "LOKI_ENDPOINT";
    Expression line77;
    FunDecl "fetchLogObject";
    FunDecl "sendToLoki";
    Route;
    Listen ].

Definition start (prog : list stmt) : result unit * Process :=
  exec prog {| scope := hoisted prog ++ globals; routed := false;
               listening := false |}.

End TopLevel.

(* ===================================================================== *)
(** ** Events handled one after the other, and the deduplicator of the
       specification *)
(* ===================================================================== *)

Module Sequential.

(** The parts of a run. *)
Definition outcome (A B C : Type) (x : A * B * C) : A := fst (fst x).
Definition after (A B C : Type) (x : A * B * C) : B := snd (fst x).
Definition trace (A B C : Type) (x : A * B * C) : C := snd x.

(** Each event, with the message it came in, is handled to the end
    before the next one arrives. *)
Fixpoint handle_all (E : Env) (events : list (value * value)) (w : World)
    : list (result unit) * World * list event :=
  match events with
  | [] => ([], w, [])
  | (snsMessage, record) :: rest =>
      let '(r, w1, t1) := run E (callback E snsMessage record) w in
      let '(rs, w2, t2) := handle_all E rest w1 in
      (r :: rs, w2, t1 ++ t2)
  end.

(** [new Date(record.eventTime).getTime()] for a record that has
    properties. *)
Definition event_time (E : Env) (record : value) : option Z :=
  match get record "eventTime" with
  | Ok et => Date_new E et
  | Throw _ => None
  end.

(** The deduplicator in the words of the specification: an event is
    accepted when its time is strictly greater than the watermark, and
    the watermark then advances to it. *)
Definition spec_accept (watermark : Z) (eventTime : option Z) : bool * Z :=
  match eventTime with
  | Some t => if (watermark <? t)%Z then (true, t) else (false, watermark)
  | None => (false, watermark)
  end.


(** [a] occurs in [b]. *)
Definition infix (a b : jsstring) : Prop :=
  exists pre post, b = pre ++ a ++ post.


End Sequential.
Import Sequential.

(* ===================================================================== *)
(** ** A concrete environment, for the examples *)
(* ===================================================================== *)

Module Fixture.

(** The line of an ALB log of the end-to-end scenario. *)
Definition ex_line : jsstring :=
  js "http 2023-01-01T00:00:00.000000Z my-elb 1.2.3.4:80 5.6.7.8:80 0.001 0.002 0.003 200 200 100 200 "
  ++ DQUOTE :: js "GET http://x/ HTTP/1.1" ++ DQUOTE :: SP
  :: DQUOTE :: js "curl/7" ++ DQUOTE
  :: js " - - arn:target " ++ DQUOTE :: js "trace-1" ++ DQUOTE
  :: js " 1 2023-01-01T00:00:00.000000Z "
  ++ DQUOTE :: js "forward" ++ DQUOTE :: SP
  :: DQUOTE :: js "-" ++ DQUOTE :: SP :: DQUOTE :: js "-" ++ DQUOTE :: SP
  :: DQUOTE :: js "arn:tg" ++ DQUOTE :: SP
  :: DQUOTE :: js "200" ++ [DQUOTE; SP].

(** The array of its match: the line, then the 21 captures. *)
Definition ex_groups : list jsstring :=
  ex_line ::
  map js [ "http"; "2023-01-01T00:00:00.000000Z"; "my-elb"; "1.2.3.4:80";
           "5.6.7.8:80"; "0.001"; "0.002"; "0.003"; "200"; "200"; "100";
           "200"; "GET http://x/ HTTP/1.1"; "curl/7"; "arn:target";
           "trace-1"; "1"; "2023-01-01T00:00:00.000000Z"; "forward";
           "arn:tg"; "200" ]%string.

(** A line that is not of the grammar. *)
Definition bad_line : jsstring := js "Enable access logs for the load balancer".

(** The text of a value of JSON, as [JSON.stringify] writes it. *)
Fixpoint to_json (v : value) : jsstring :=
  match v with
  | VUndefined | VNull => js "null"
  | VBool true => js "true"
  | VBool false => js "false"
  | VNum z => js (DecimalString.NilZero.string_of_int (Z.to_int z))
  | VStr s => quote s
  | VArr items =>
      91%N :: (fix elements (l : list value) : jsstring :=
                 match l with
                 | [] => []
                 | [x] => to_json x
                 | x :: l' => to_json x ++ 44%N :: elements l'
                 end) items ++ [93%N]
  | VObj fields =>
      123%N :: (fix props (l : list (jsstring * value)) : jsstring :=
                  match l with
                  | [] => []
                  | [(k, x)] => quote k ++ 58%N :: to_json x
                  | (k, x) :: l' => quote k ++ 58%N :: to_json x ++ 44%N :: props l'
                  end) fields ++ [125%N]
  end.

Definition t0 : jsstring := js "2023-01-01T00:00:00.000Z".
Definition t1 : jsstring := js "2023-01-01T00:00:01.000Z".
Definition t2 : jsstring := js "2023-01-01T00:00:02.000Z".

Definition dates : list (jsstring * Z) :=
  [ (t0, 1672531200000); (t1, 1672531201000); (t2, 1672531202000) ]%Z.

Definition alb_logs : value := VStr (js "alb-logs").
Definition ok_key : value := VStr (js "AWSLogs/ok.log.gz").
Definition missing_key : value := VStr (js "AWSLogs/missing.log.gz").
Definition mixed_key : value := VStr (js "AWSLogs/mixed.log.gz").

(** A record of an S3 event notification. *)
Definition s3_record (eventName : string) (eventTime : jsstring) (key : value)
    : value :=
  VObj [ (js "eventName", VStr (js eventName));
         (js "eventTime", VStr eventTime);
         (js "s3", VObj [ (js "bucket", VObj [ (js "name", alb_logs) ]);
                          (js "object", VObj [ (js "key", key) ]) ]) ].

Definition put (eventTime : jsstring) (key : value) : value :=
  s3_record "ObjectCreated:Put" eventTime key.
Definition removed (eventTime : jsstring) (key : value) : value :=
  s3_record "ObjectRemoved:Delete" eventTime key.

(** The message of S3, and the notification of SNS around its text. *)
Definition message (records : list value) : value :=
  VObj [ (js "Records", VArr records) ].
Definition notification (msg : value) : value :=
  VObj [ (js "Type", VStr (js "Notification"));
         (js "Message", VStr (to_json msg)) ].
Definition body_of (msg : value) : value := VStr (to_json (notification msg)).

Definition msg_put_ok : value := message [put t1 ok_key].
Definition msg_put_twice : value := message [put t1 ok_key; put t1 ok_key].
Definition msg_put_missing : value := message [put t1 missing_key].
Definition msg_put_mixed : value := message [put t1 mixed_key].
Definition msg_removed : value := message [removed t1 ok_key].

(** The documents that the [JSON.parse] of this environment knows. *)
Definition documents : list value :=
  let msgs := [ msg_put_ok; msg_put_twice; msg_put_missing; msg_put_mixed;
                msg_removed ] in
  msgs ++ map notification msgs.

Fixpoint find_document (s : jsstring) (docs : list value) : result value :=
  match docs with
  | [] => Throw SyntaxError
  | d :: docs' =>
      if JsString.eqb (to_json d) s then Ok d else find_document s docs'
  end.

(** The contents of the bucket, compressed and not. *)
Definition ok_gz : bytes := [31; 139; 8; 0; 1]%N.
Definition mixed_gz : bytes := [31; 139; 8; 0; 2]%N.
Definition ok_blob : jsstring := ex_line ++ [NL].
Definition mixed_blob : jsstring :=
  ex_line ++ NL :: bad_line ++ NL :: ex_line ++ [NL].

Definition bytes_eqb (a b : bytes) : bool := JsString.eqb a b.

Definition value_is (v w : value) : bool :=
  match v, w with
  | VStr s, VStr t => JsString.eqb s t
  | _, _ => false
  end.

(** - [JSON.parse] reads the texts of [documents] and rejects the rest
      (no other text is given to it in the examples);
    - [new Date] reads the three dates of [dates];
    - the clock starts after them and gains a millisecond per step;
    - the bucket has two objects; a third key is missing;
    - every request succeeds. *)
Definition E : Env := {|
  JSON_parse := fun v =>
    match v with
    | VStr s => find_document s documents
    | VNull => Ok VNull
    | VBool b => Ok (VBool b)
    | VNum z => Ok (VNum z)
    | _ => Throw SyntaxError
    end;
  Date_new := fun v =>
    match v with
    | VStr s => lookup s dates
    | VNum z => Some z
    | _ => None
    end;
  Date_now := fun n => (1672531300000 + Z.of_nat n)%Z;
  s3_getObject := fun _ b k =>
    if value_is b alb_logs && value_is k ok_key then Ok ok_gz
    else if value_is b alb_logs && value_is k mixed_key then Ok mixed_gz
    else Throw (External 404);
  ungzip := fun body =>
    if bytes_eqb body ok_gz then Ok ok_blob
    else if bytes_eqb body mixed_gz then Ok mixed_blob
    else Throw (External 1);
  request := fun _ _ _ => Ok tt
|}.

(** The payload of [ex_line]. *)
Definition ex_payload : jsstring :=
  match jsonLogLine ex_line with
  | Ok payload => payload
  | Throw _ => []
  end.


(** The process has started at [t0]. *)
Definition w0 : World := {| lastUpdated := 1672531200000; steps := 0 |}.
Definition sv0 : Server := {| world := w0; pending := []; unhandled := [] |}.

End Fixture.

Import Fixture.

(* ===================================================================== *)
(** ** What a pattern matches, and further observations *)
(* ===================================================================== *)

Module Pattern.

(** The text that a pattern matches and the captures of its groups, in the
    order in which the groups close; [^] is left to the matcher. *)
Inductive matches : regex -> jsstring -> captures -> Prop :=
| matches_eps : matches Eps [] []
| matches_bol : matches Bol [] []
| matches_chr p c : p c = true -> matches (Chr p) [c] []
| matches_lazy p l : forallb p l = true -> matches (LazyStar p) l []
| matches_plus p c l :
    p c = true -> forallb p l = true -> matches (GreedyPlus p) (c :: l) []
| matches_group name r l caps :
    matches r l caps -> matches (Group name r) l (caps ++ [l])
| matches_seq r1 r2 l1 l2 caps1 caps2 :
    matches r1 l1 caps1 -> matches r2 l2 caps2 ->
    matches (Seq r1 r2) (l1 ++ l2) (caps1 ++ caps2).

(** The bodies of the groups of a pattern, in the order of the captures. *)
Fixpoint groups_of (r : regex) : list regex :=
  match r with
  | Group _ r' => groups_of r' ++ [r']
  | Seq r1 r2 => groups_of r1 ++ groups_of r2
  | _ => []
  end.

(** The characters that a pattern can take. *)
Fixpoint alphabet (r : regex) (c : char) : bool :=
  match r with
  | Eps | Bol => false
  | Chr p | LazyStar p | GreedyPlus p => p c
  | Group _ r' => alphabet r' c
  | Seq r1 r2 => alphabet r1 c || alphabet r2 c
  end.

(** The least number of characters that a pattern takes. *)
Fixpoint minlen (r : regex) : nat :=
  match r with
  | Eps | Bol | LazyStar _ => 0
  | Chr _ | GreedyPlus _ => 1
  | Group _ r' => minlen r'
  | Seq r1 r2 => minlen r1 + minlen r2
  end.

End Pattern.
Import Pattern.

Module Observe.

(** What [console.log] was given, in order. *)
Definition logged (t : list event) : list logmsg :=
  flat_map (fun e => match e with Logged msg => [msg] | _ => [] end) t.

(** The bucket name and the key that [fetchLogObject] is to ask for, read
    from [record.s3] as lines 166-167 and 82-83 read them. *)
Definition coordinates (s3 : value) : result (value * value) :=
  match get s3 "bucket" with
  | Throw e => Throw e
  | Ok b =>
      match get s3 "object" with
      | Throw e => Throw e
      | Ok o =>
          match get b "name" with
          | Throw e => Throw e
          | Ok name =>
              match get o "key" with
              | Throw e => Throw e
              | Ok key => Ok (name, key)
              end
          end
      end
  end.

(** [record.eventName === 'ObjectCreated:Put'] for a record that has
    properties. *)
Definition is_put (record : value) : bool :=
  match get record "eventName" with
  | Ok name => strict_eq_str name "ObjectCreated:Put"
  | Throw _ => false
  end.

(** The message of line 171, as the template reads it from [snsMessage]. *)
Definition diagnostic (snsMessage : value) : result logmsg :=
  match get snsMessage "bucket" with
  | Throw e => Throw e
  | Ok mb =>
      match get mb "name" with
      | Throw e => Throw e
      | Ok name =>
          match get snsMessage "object" with
          | Throw e => Throw e
          | Ok mo =>
              match get mo "Key" with
              | Throw e => Throw e
              | Ok key => Ok (LogNoLogData name key)
              end
          end
      end
  end.

(** What the first turn of the callback asks the storage for, for an
    ObjectCreated:Put record and the watermark [W] that it reads. *)
Definition first_fetch (E : Env) (W : Z) (record : value)
    : list (value * value) :=
  match get record "eventTime" with
  | Throw _ => []
  | Ok et =>
      match spec_accept W (Date_new E et) with
      | (false, _) => []
      | (true, _) =>
          match get record "s3" with
          | Throw _ => []
          | Ok s3 =>
              match coordinates s3 with
              | Ok c => [c]
              | Throw _ => []
              end
          end
      end
  end.

(** The lines of a blob, each with its newline, put back together. *)
Definition unlines (lines : list jsstring) : jsstring :=
  concat (map (fun l => l ++ [NL]) lines).

End Observe.
Import Observe.

Module Fixture2.

(** The environment of the examples, but for the decompression: every
    object of the bucket is empty. *)
Definition E_empty : Env := {|
  JSON_parse := JSON_parse E;
  Date_new := Date_new E;
  Date_now := Date_now E;
  s3_getObject := s3_getObject E;
  ungzip := fun _ => Ok [];
  request := request E
|}.

(** The message that S3 sends when notifications are set up: it has no
    [Records]. *)
Definition test_event : value :=
  VObj [ (js "Service", VStr (js "Amazon S3"));
         (js "Event", VStr (js "s3:TestEvent")) ].

(** The environment of the examples, with that message among the
    documents that [JSON.parse] knows. *)
Definition E_test : Env := {|
  JSON_parse := fun v =>
    match v with
    | VStr s =>
        find_document s (test_event :: notification test_event :: documents)
    | _ => JSON_parse E v
    end;
  Date_new := Date_new E;
  Date_now := Date_now E;
  s3_getObject := s3_getObject E;
  ungzip := ungzip E;
  request := request E
|}.

(** What is left of a call after a turn. *)
Definition pending_of (x : status unit * World * list event) : prog unit :=
  match fst (fst x) with
  | Suspended rest => rest
  | Settled _ => Ret tt
  end.

Definition is_suspended (x : status unit * World * list event) : bool :=
  match fst (fst x) with
  | Suspended _ => true
  | Settled _ => false
  end.

(** The process when the watermark has gone on to [t2]. *)
Definition w2 : World := {| lastUpdated := 1672531202000; steps := 7 |}.

End Fixture2.
Import Fixture2.

(* ===================================================================== *)
(** * Theorems *)
(* ===================================================================== *)

(** ** Strings and lines *)

Lemma eqb_refl s : JsString.eqb s s = true.
Proof.
  induction s as [|c s IH]; simpl; trivial.
  unfold char_eqb. rewrite N.eqb_refl. exact IH.
Qed.

Lemma eqb_eq s t : JsString.eqb s t = true <-> s = t.
Proof.
  revert t. induction s as [|a s IH]; intros [|b t]; simpl; split;
    try congruence; try discriminate; trivial.
  - intro H. apply andb_true_iff in H. destruct H as [Hc Hs].
    apply N.eqb_eq in Hc. apply IH in Hs. congruence.
  - intro H. injection H as -> ->. unfold char_eqb.
    rewrite N.eqb_refl. simpl. apply IH. reflexivity.
Qed.

Lemma split_nl_nonempty s : split_nl s <> [].
Proof.
  destruct s as [|c s]; simpl; [discriminate|].
  destruct (char_eqb c NL); [discriminate|].
  destruct (split_nl s); discriminate.
Qed.

(** A line without a newline, then a newline: the line is the first piece
    and the rest is split on its own. *)
Lemma split_nl_line l rest :
  ~ In NL l -> split_nl (l ++ NL :: rest) = l :: split_nl rest.
Proof.
  induction l as [|c l IH]; intro Hnl; simpl.
  - reflexivity.
  - assert (Hc : char_eqb c NL = false).
    { unfold char_eqb. apply N.eqb_neq. intro Heq. apply Hnl. left.
      exact Heq. }
    rewrite Hc, IH; [reflexivity|].
    intro Hin. apply Hnl. right. exact Hin.
Qed.

Lemma split_nl_terminated lines :
  Forall (fun l => ~ In NL l) lines ->
  split_nl (concat (map (fun l => l ++ [NL]) lines)) = lines ++ [[]].
Proof.
  induction 1 as [|l lines Hl _ IH]; simpl; [reflexivity|].
  rewrite <- app_assoc. simpl. rewrite split_nl_line by assumption.
  rewrite IH. reflexivity.
Qed.

(** ** The pattern and its groups *)

Section Captures.

Variable R : Type.

Lemma lazy_star_inv p (k : cont R) s : forall pos caps res,
  lazy_star p k pos s caps = Some res ->
  exists pos' s', k pos' s' caps = Some res.
Proof.
  induction s as [|c s IH]; intros pos caps res; simpl;
    destruct (k pos _ caps) eqn:Hk; intro H.
  - injection H as <-. eauto.
  - discriminate.
  - injection H as <-. eauto.
  - destruct (p c); [|discriminate]. eapply IH; eassumption.
Qed.

Lemma greedy_plus_inv p (k : cont R) s : forall pos caps res,
  greedy_plus p k pos s caps = Some res ->
  exists pos' s', k pos' s' caps = Some res.
Proof.
  induction s as [|c s IH]; intros pos caps res; simpl; [discriminate|].
  destruct (p c); [|discriminate].
  destruct (greedy_plus p k (S pos) s caps) eqn:Hg; intro H.
  - injection H as <-. eapply IH; eassumption.
  - eauto.
Qed.

End Captures.

(** A successful match has called its continuation with one more capture
    for each group of the pattern. *)
Lemma m_captures r : forall R (k : cont R) pos s caps res,
  m r k pos s caps = Some res ->
  exists pos' s' caps',
    k pos' s' caps' = Some res
    /\ List.length caps' = List.length caps + ngroups r.
Proof.
  induction r as [| |p|p|p|name r IH|r1 IH1 r2 IH2];
    intros R k pos s caps res H; simpl in *.
  - exists pos, s, caps. split; [exact H|lia].
  - destruct (Nat.eqb pos 0); [|discriminate].
    exists pos, s, caps. split; [exact H|lia].
  - destruct s as [|c s]; [discriminate|].
    destruct (p c); [|discriminate].
    exists (S pos), s, caps. split; [exact H|lia].
  - apply lazy_star_inv in H. destruct H as (pos' & s' & H).
    exists pos', s', caps. split; [exact H|lia].
  - apply greedy_plus_inv in H. destruct H as (pos' & s' & H).
    exists pos', s', caps. split; [exact H|lia].
  - apply IH in H. destruct H as (pos' & s' & caps' & H & Hlen).
    eexists _, _, _. split; [exact H|].
    rewrite length_app. simpl. lia.
  - apply IH1 in H. destruct H as (pos1 & s1 & caps1 & H & Hlen1).
    apply IH2 in H. destruct H as (pos2 & s2 & caps2 & H & Hlen2).
    exists pos2, s2, caps2. split; [exact H|lia].
Qed.

Lemma match_at_length r pos s a :
  match_at r pos s = Some a -> List.length a = S (ngroups r).
Proof.
  unfold match_at. intro H. apply m_captures in H.
  destruct H as (pos' & s' & caps' & H & Hlen).
  injection H as <-. simpl in *. lia.
Qed.

Lemma str_match_length s r a :
  str_match s r = Some a -> List.length a = S (ngroups r).
Proof.
  unfold str_match. generalize 0.
  induction s as [|c s IH]; intros pos; simpl;
    destruct (match_at r pos _) eqn:Hm; intro H;
    try (injection H as <-; eapply match_at_length; eassumption);
    try discriminate.
  eapply IH; eassumption.
Qed.

(** The array of a match of [re] has the matched text and 21 captures. *)
Lemma re_groups line groups :
  str_match line re = Some groups ->
  exists whole vs, groups = whole :: vs /\ List.length vs = 21.
Proof.
  intro H. apply str_match_length in H.
  change (ngroups re) with 21 in H.
  destruct groups as [|whole vs]; [discriminate|].
  exists whole, vs. split; [reflexivity|]. simpl in H. lia.
Qed.

Lemma fill_21 whole vs :
  List.length vs = 21 ->
  fill (Some (whole :: vs)) keys 1 [] = Ok (combine (map js keys) (map Some vs)).
Proof.
  intro H.
  do 21 (destruct vs as [|? vs]; [discriminate H|]).
  destruct vs; [|discriminate H].
  reflexivity.
Qed.

Lemma matching_line_fields line groups :
  str_match line re = Some groups ->
  exists vs,
    groups = hd [] groups :: vs
    /\ List.length vs = 21
    /\ jsonLogObj line = Ok (combine (map js keys) (map Some vs)).
Proof.
  intro H. destruct (re_groups H) as (whole & vs & -> & Hlen).
  exists vs. split; [reflexivity|]. split; [exact Hlen|].
  unfold jsonLogObj. rewrite H. apply fill_21. exact Hlen.
Qed.

(** C2, as amended. For every line that matches the pattern, the parser
    yields a record with exactly the 21 keys of the code (type, time, ...,
    status_code, in this order, each once), the value of each being a
    string (possibly empty): capture number i of the match for key number
    i; no field of the record of a matching line is missing or undefined. *)
Theorem matching_line_has_21_string_fields (line : jsstring)
    (groups : list jsstring) :
  str_match line re = Some groups ->
  List.length keys = 21 /\ NoDup keys /\ group_names re = keys
  /\ exists vs,
       groups = hd [] groups :: vs
       /\ List.length vs = 21
       /\ jsonLogObj line = Ok (combine (map js keys) (map Some vs))
       /\ map fst (combine (map js keys) (map Some vs)) = map js keys.
Proof.
  intro H. split; [reflexivity|]. split.
  { repeat (constructor; [simpl; intro Hin;
      repeat (destruct Hin as [Hin|Hin]; [discriminate Hin|]); exact Hin|]).
    constructor. }
  split; [reflexivity|].
  destruct (matching_line_fields H) as (vs & Hg & Hlen & Hobj).
  exists vs. split; [exact Hg|]. split; [exact Hlen|].
  split; [exact Hobj|].
  clear H Hg Hobj. do 21 (destruct vs as [|? vs]; [discriminate Hlen|]).
  destruct vs; [|discriminate Hlen]. reflexivity.
Qed.

(** ** Running programs: the equations of [run] *)

Lemma run_bind E A B (p : prog A) (f : A -> prog B) : forall w,
  run E (bind p f) w =
  let '(r, w1, t1) := run E p w in
  match r with
  | Ok a => let '(r2, w2, t2) := run E (f a) w1 in (r2, w2, t1 ++ t2)
  | Throw e => (Throw e, w1, t1)
  end.
Proof.
  induction p as [a|e|X op k IH]; intro w; simpl.
  - destruct (run E (f a) w) as [[r2 w2] t2]. reflexivity.
  - reflexivity.
  - destruct (answer E op w) as [[x w1] t1]. rewrite IH.
    destruct (run E (k x) w1) as [[r w2] t2]. destruct r as [a|e].
    + destruct (run E (f a) w2) as [[r3 w3] t3]. rewrite app_assoc. reflexivity.
    + reflexivity.
Qed.

Lemma run_try_catch E A (p : prog A) (h : error -> prog A) : forall w,
  run E (try_catch p h) w =
  let '(r, w1, t1) := run E p w in
  match r with
  | Ok a => (Ok a, w1, t1)
  | Throw e => let '(r2, w2, t2) := run E (h e) w1 in (r2, w2, t1 ++ t2)
  end.
Proof.
  induction p as [a|e|X op k IH]; intro w; simpl.
  - reflexivity.
  - destruct (run E (h e) w) as [[r2 w2] t2]. reflexivity.
  - destruct (answer E op w) as [[x w1] t1]. rewrite IH.
    destruct (run E (k x) w1) as [[r w2] t2]. destruct r as [a|e].
    + reflexivity.
    + destruct (run E (h e) w2) as [[r3 w3] t3]. rewrite app_assoc. reflexivity.
Qed.

Lemma run_lift E A (r : result A) w : run E (lift r) w = (r, w, []).
Proof. destruct r; reflexivity. Qed.

(** The caller of an [async] function sees its result one step later. *)
Lemma run_await_call E A (p : prog A) w :
  run E (await_call p) w =
  let '(r, w1, t1) := run E p w in (r, tick w1, t1).
Proof.
  unfold await_call. rewrite run_bind, run_try_catch, run_bind.
  destruct (run E p w) as [[r w1] t1]. destruct r as [a|e]; simpl;
    rewrite ?app_nil_r; reflexivity.
Qed.

(** A run in turns sees what a run to the end sees. *)
Lemma run_turn E A (p : prog A) : forall w,
  run E p w =
  let '(st, w1, t1) := turn E p w in
  match st with
  | Settled r => (r, w1, t1)
  | Suspended rest => let '(r, w2, t2) := run E rest w1 in (r, w2, t1 ++ t2)
  end.
Proof.
  induction p as [a|e|X op k IH]; intro w; simpl; try reflexivity.
  destruct (answer E op w) as [[x w1] t1].
  destruct (is_await op).
  - destruct (run E (k x) w1) as [[r w2] t2]. reflexivity.
  - rewrite IH. destruct (turn E (k x) w1) as [[st w2] t2].
    destruct st as [r|rest].
    + reflexivity.
    + destruct (run E rest w2) as [[r w3] t3]. rewrite app_assoc. reflexivity.
Qed.

(** ** Programs that leave the watermark alone *)

Lemma quiet_bind A B (p : prog A) (f : A -> prog B) :
  quiet p -> (forall a, quiet (f a)) -> quiet (bind p f).
Proof.
  intros Hp Hf. induction Hp as [a|e|X op k Hop Hk IH]; simpl.
  - apply Hf.
  - constructor.
  - constructor; assumption.
Qed.

Lemma quiet_try_catch A (p : prog A) (h : error -> prog A) :
  quiet p -> (forall e, quiet (h e)) -> quiet (try_catch p h).
Proof.
  intros Hp Hh. induction Hp as [a|e|X op k Hop Hk IH]; simpl.
  - constructor.
  - apply Hh.
  - constructor; assumption.
Qed.

Lemma quiet_lift A (r : result A) : quiet (lift r).
Proof. destruct r; constructor. Qed.

Lemma quiet_perform X (op : operation X) :
  touches_watermark op = false -> quiet (perform op).
Proof. intro H. constructor; [exact H|]. intro x. constructor. Qed.

Lemma quiet_await A (op : operation (result A)) :
  touches_watermark op = false -> quiet (await op).
Proof. intro H. constructor; [exact H|]. intro x. apply quiet_lift. Qed.

Lemma quiet_await_call A (p : prog A) : quiet p -> quiet (await_call p).
Proof.
  intro H. unfold await_call.
  apply quiet_bind.
  - apply quiet_try_catch; [|intro; constructor].
    apply quiet_bind; [exact H|intro; constructor].
  - intro r. apply quiet_bind; [apply quiet_perform; reflexivity|].
    intro. apply quiet_lift.
Qed.

Create HintDb quiet.
#[local] Hint Resolve quiet_bind quiet_try_catch quiet_lift quiet_perform
  quiet_await quiet_await_call : quiet.
#[local] Hint Constructors quiet : quiet.

Lemma quiet_post_line l : quiet (post_line l).
Proof. unfold post_line. auto 6 with quiet. Qed.

Lemma send_lines_cons line rest :
  send_lines (line :: rest) =
  (payload <- lift (jsonLogLine line) ;; post_line payload ;; send_lines rest).
Proof. reflexivity. Qed.

Lemma quiet_send_lines lines : quiet (send_lines lines).
Proof.
  induction lines as [|l lines IH]; [constructor|].
  rewrite send_lines_cons.
  apply quiet_bind; [apply quiet_lift|]. intro.
  apply quiet_bind; [apply quiet_post_line|]. intro. exact IH.
Qed.

Lemma quiet_fetchLogObject d : quiet (fetchLogObject d).
Proof. unfold fetchLogObject. auto 10 with quiet. Qed.

Lemma quiet_on_put msg s3 : quiet (on_put msg s3).
Proof.
  unfold on_put.
  apply quiet_bind; [apply quiet_lift|]. intro.
  apply quiet_bind; [apply quiet_lift|]. intro.
  apply quiet_bind; [apply quiet_await_call, quiet_fetchLogObject|].
  intro logData. destruct (falsy logData).
  - repeat (apply quiet_bind; [apply quiet_lift|]; intro).
    apply quiet_perform. reflexivity.
  - apply quiet_await_call. unfold sendToLoki. apply quiet_send_lines.
Qed.

Lemma writes_app t1 t2 : writes (t1 ++ t2) = writes t1 ++ writes t2.
Proof. unfold writes. apply flat_map_app. Qed.

Lemma posts_app t1 t2 : posts (t1 ++ t2) = posts t1 ++ posts t2.
Proof. unfold posts. apply flat_map_app. Qed.

Lemma fetches_app t1 t2 : fetches (t1 ++ t2) = fetches t1 ++ fetches t2.
Proof. unfold fetches. apply flat_map_app. Qed.

Lemma reads_app t1 t2 : reads (t1 ++ t2) = reads t1 + reads t2.
Proof. unfold reads. rewrite filter_app, length_app. reflexivity. Qed.

(** A quiet program neither reads nor writes the watermark, and time goes
    on. *)
Lemma quiet_run E A (p : prog A) :
  quiet p -> forall w r w' t,
  run E p w = (r, w', t) ->
  lastUpdated w' = lastUpdated w /\ writes t = [] /\ reads t = 0
  /\ steps w <= steps w'.
Proof.
  induction 1 as [a|e|X op k Hop Hk IH]; intros w r w' t Hrun; simpl in Hrun.
  - injection Hrun as <- <- <-. repeat split; trivial.
  - injection Hrun as <- <- <-. repeat split; trivial.
  - destruct (answer E op w) as [[x w1] t1] eqn:Ha.
    destruct (run E (k x) w1) as [[r2 w2] t2] eqn:Hr.
    injection Hrun as <- <- <-.
    destruct (IH x _ _ _ _ Hr) as (Hl & Hw & Hrd & Hs).
    rewrite writes_app, reads_app, Hw, Hrd, Hl.
    destruct op; try discriminate Hop; simpl in Ha; injection Ha as <- <- <-;
      simpl in *; repeat split; trivial; lia.
Qed.

(** ** The loop of [sendToLoki] *)

(** One line: the clock is read, the request is made, and its failure, if
    any, is logged. *)
Lemma post_line_run E l w :
  exists w' t,
    run E (post_line l) w = (Ok tt, w', t)
    /\ posts t = [((Date_now E (steps w) * 1000000)%Z, l)]
    /\ steps w < steps w'.
Proof.
  unfold post_line. simpl.
  destruct (request E (S (steps w)) (Date_now E (steps w) * 1000000) l) as [[]|e];
    simpl; eexists _, _; (split; [reflexivity|]); split; simpl; trivial; lia.
Qed.

Lemma matching_jsonLogLine line :
  str_match line re <> None ->
  exists groups vs,
    str_match line re = Some groups
    /\ groups = hd [] groups :: vs
    /\ List.length vs = 21
    /\ jsonLogLine line
       = Ok (JSON_stringify (combine (map js keys) (map Some vs))).
Proof.
  intro H. destruct (str_match line re) as [groups|] eqn:Hm; [|congruence].
  destruct (matching_line_fields Hm) as (vs & Hg & Hlen & Hobj).
  exists groups, vs. repeat split; trivial.
  unfold jsonLogLine. rewrite Hobj. reflexivity.
Qed.

Lemma send_lines_run E lines :
  Forall (fun line => str_match line re <> None) lines ->
  forall w, exists w' t ns,
    run E (send_lines lines) w = (Ok tt, w', t)
    /\ steps w <= steps w'
    /\ Forall2 (fun line p => jsonLogLine line = Ok (snd p)) lines (posts t)
    /\ map fst (posts t) = map (fun n => (Date_now E n * 1000000)%Z) ns
    /\ StronglySorted lt ns
    /\ Forall (fun n => steps w <= n) ns.
Proof.
  induction 1 as [|line rest Hline _ IH]; intro w.
  - exists w, [], []. simpl. repeat split; constructor.
  - destruct (matching_jsonLogLine Hline) as (groups & vs & _ & _ & _ & Hp).
    rewrite send_lines_cons, run_bind, Hp, run_lift. cbv beta iota.
    rewrite run_bind.
    destruct (post_line_run E (JSON_stringify (combine (map js keys) (map Some vs))) w)
      as (w1 & t1 & -> & Hposts & Hsteps).
    destruct (IH w1) as (w2 & t2 & ns & -> & Hle & Hall & Hts & Hsorted & Hns).
    exists w2, (t1 ++ t2), (steps w :: ns).
    rewrite posts_app, Hposts. cbv beta iota.
    split; [reflexivity|]. split; [lia|].
    split; [constructor; [exact Hp | exact Hall]|].
    split; [change (map fst ([?x] ++ ?l)) with (fst x :: map fst l);
            cbn [map fst]; rewrite Hts; reflexivity|].
    split.
    + constructor; [exact Hsorted|].
      eapply Forall_impl; [|exact Hns]. simpl. intros n Hn. lia.
    + constructor; [lia|].
      eapply Forall_impl; [|exact Hns]. simpl. intros n Hn. lia.
Qed.

(** ** The lines of a blob *)

(** C8. For a blob made of lines each ended by a newline, [logArray] (the
    split on newline with the last element popped) is the list of those
    lines, one element per line and no empty element after the last
    newline, so that the loop of [sendToLoki] runs once per line; when the
    lines are of the grammar it ends without an error and has made one
    request per line, with the serialization of the record of that line.
    The blob of lineA and lineB gives lineA and lineB only. *)
Theorem logArray_terminated_lines (lines : list jsstring) :
  Forall (fun l => ~ In NL l) lines ->
  logArray (concat (map (fun l => l ++ [NL]) lines)) = lines
  /\ List.length (logArray (concat (map (fun l => l ++ [NL]) lines)))
     = List.length lines
  /\ (Forall (fun line => str_match line re <> None) lines ->
      forall E w,
        outcome (run E (sendToLoki (concat (map (fun l => l ++ [NL]) lines))) w)
        = Ok tt
        /\ Forall2 (fun line p => jsonLogLine line = Ok (snd p)) lines
             (posts (trace (run E (sendToLoki
                (concat (map (fun l => l ++ [NL]) lines))) w)))).
Proof.
  intro H.
  assert (Hlines : logArray (concat (map (fun l => l ++ [NL]) lines)) = lines).
  { unfold logArray, pop. rewrite (split_nl_terminated H). apply removelast_last. }
  split; [exact Hlines|]. split; [rewrite Hlines; reflexivity|].
  intros Hmatch E w. unfold sendToLoki. rewrite Hlines.
  destruct (send_lines_run E Hmatch w) as (w' & t & ns & -> & _ & Hpay & _).
  split; [reflexivity|exact Hpay].
Qed.

Lemma logArray_lineA_lineB :
  Forall (fun l => ~ In NL l) [js "lineA"; js "lineB"]
  /\ logArray (js "lineA" ++ NL :: js "lineB" ++ [NL])
     = [js "lineA"; js "lineB"].
Proof.
  assert (H : Forall (fun l => ~ In NL l) [js "lineA"; js "lineB"]).
  { repeat constructor; simpl; intro H;
      repeat (destruct H as [H|H]; [discriminate H|]); exact H. }
  split; [exact H|].
  exact (proj1 (logArray_terminated_lines H)).
Defined.

(** ** The payload holds the fields *)








(** ** The callback *)

(** A step of a run through [x <- lift (get ..) ;; ..] when the property is
    known. *)
Ltac step_get H := rewrite run_bind, H, run_lift; cbv beta iota.

(** A value that has properties has all of them. *)
Lemma get_total v k x k' : get v k = Ok x -> exists y, get v k' = Ok y.
Proof.
  destruct v; simpl; intro H; try discriminate; eauto.
  destruct (lookup (js k') fields); eauto.
Qed.

Lemma run_callback E msg record w et :
  get record "eventTime" = Ok et ->
  run E (callback E msg record) w =
  match spec_accept (lastUpdated w) (Date_new E et) with
  | (true, t) =>
      let '(r, w', tr) := run E (accepted msg record t) (tick w) in
      (r, w', ReadWatermark :: tr)
  | (false, _) => (Ok tt, tick w, [ReadWatermark])
  end.
Proof.
  intro H. unfold callback, spec_accept.
  step_get H. rewrite run_bind.
  change (run E (perform GetLastUpdated) w)
    with (Ok (lastUpdated w), tick w, [ReadWatermark]).
  cbv beta iota.
  destruct (Date_new E et) as [t|]; [|reflexivity].
  destruct (lastUpdated w <? t)%Z; [|reflexivity].
  destruct (run E (accepted msg record t) (tick w)) as [[r w'] tr]. reflexivity.
Qed.

Lemma run_accepted E msg record t w s3 name :
  get record "s3" = Ok s3 ->
  get record "eventName" = Ok name ->
  run E (accepted msg record t) w =
  let '(r, w1, t1) :=
    run E (if strict_eq_str name "ObjectCreated:Put"
           then on_put msg s3 else Ret tt) w in
  match r with
  | Ok _ => (Ok tt, {| lastUpdated := t; steps := S (steps w1) |},
             t1 ++ [WriteWatermark t])
  | Throw e => (Throw e, w1, t1)
  end.
Proof.
  intros Hs3 Hname. unfold accepted.
  step_get Hs3. step_get Hname. rewrite run_bind.
  destruct (run E _ w) as [[r w1] t1]. destruct r as [[]|e]; reflexivity.
Qed.

Lemma quiet_event_body msg s3 name :
  quiet (if strict_eq_str name "ObjectCreated:Put"
         then on_put msg s3 else Ret tt).
Proof. destruct (strict_eq_str _ _); [apply quiet_on_put|constructor]. Qed.

(** The shape of the trace of one call of the callback. *)
Lemma callback_trace E msg record w et :
  get record "eventTime" = Ok et ->
  exists r w' mid fin,
    run E (callback E msg record) w = (r, w', ReadWatermark :: mid ++ fin)
    /\ reads mid = 0 /\ writes mid = []
    /\ ((fin = [] /\ lastUpdated w' = lastUpdated w
         /\ (r = Ok tt -> fst (spec_accept (lastUpdated w) (Date_new E et)) = false))
        \/ exists t, fin = [WriteWatermark t] /\ r = Ok tt
                     /\ lastUpdated w' = t
                     /\ spec_accept (lastUpdated w) (Date_new E et) = (true, t)).
Proof.
  intro H. rewrite (run_callback E msg w H).
  destruct (spec_accept (lastUpdated w) (Date_new E et)) as [[|] t] eqn:Hacc.
  - destruct (get_total "s3" H) as (s3 & Hs3).
    destruct (get_total "eventName" H) as (name & Hname).
    rewrite (run_accepted E msg t (tick w) Hs3 Hname).
    destruct (run E _ (tick w)) as [[r w1] t1] eqn:Hrun.
    destruct (quiet_run (quiet_event_body msg s3 name) Hrun) as (Hl & Hw & Hr & _).
    destruct r as [[]|e].
    + eexists _, _, t1, _. split; [reflexivity|].
      split; [exact Hr|]. split; [exact Hw|].
      right. exists t. repeat split.
    + exists (Throw e), w1, t1, []. rewrite app_nil_r.
      split; [reflexivity|]. split; [exact Hr|]. split; [exact Hw|].
      left. split; [reflexivity|]. split; [exact Hl|]. discriminate.
  - exists (Ok tt), (tick w), [], []. split; [reflexivity|].
    repeat split. left. repeat split.
Qed.


(** ** The deduplicator of the specification *)


Lemma spec_accept_true W t z :
  spec_accept W t = (true, z) -> t = Some z /\ (W < z)%Z.
Proof.
  unfold spec_accept. destruct t as [t|]; [|discriminate].
  destruct (W <? t)%Z eqn:Hlt; [|discriminate].
  intro H. injection H as <-. split; [reflexivity|]. apply Z.ltb_lt. exact Hlt.
Qed.




(** C6, as amended. For every event (a record that has properties) the
    watermark is read exactly once, first of all and so before any fetch
    or request; it is written at most once, and then as the last step of
    the callback, after every fetch and request of that event (not before
    they begin), with the time of the event, the callback ending without
    an error. *)
Theorem watermark_read_first_written_last (E : Env) (msg record : value)
    (w : World) (et : value) :
  get record "eventTime" = Ok et ->
  exists mid fin,
    trace (run E (callback E msg record) w) = ReadWatermark :: mid ++ fin
    /\ reads mid = 0 /\ writes mid = []
    /\ reads (trace (run E (callback E msg record) w)) = 1
    /\ fetches (trace (run E (callback E msg record) w)) = fetches mid
    /\ posts (trace (run E (callback E msg record) w)) = posts mid
    /\ (fin = []
        \/ exists t, fin = [WriteWatermark t]
                     /\ Date_new E et = Some t
                     /\ outcome (run E (callback E msg record) w) = Ok tt).
Proof.
  intro Hget.
  destruct (callback_trace E msg w Hget)
    as (r & w' & mid & fin & -> & Hrd & Hwr & Hfin).
  exists mid, fin. unfold trace, outcome. simpl fst. simpl snd.
  split; [reflexivity|]. split; [exact Hrd|]. split; [exact Hwr|].
  change (ReadWatermark :: mid ++ fin) with ([ReadWatermark] ++ mid ++ fin).
  rewrite !reads_app, !fetches_app, !posts_app, Hrd.
  destruct Hfin as [(-> & _ & _)|(t & -> & -> & _ & Hacc)].
  - simpl. rewrite !app_nil_r. repeat split. left. reflexivity.
  - simpl. rewrite !app_nil_r. repeat split. right. exists t.
    apply spec_accept_true in Hacc. destruct Hacc as [-> _]. repeat split.
Qed.

(** C7, as amended. For every accepted event whose [eventName] is not
    ObjectCreated:Put, nothing is fetched, parsed or submitted and nothing
    is logged, but the watermark does advance to the time of the event: the
    callback reads the watermark, writes it, and ends. *)
Theorem other_event_only_advances_watermark (E : Env) (msg record : value)
    (w : World) (et name : value) (t : Z) :
  get record "eventTime" = Ok et ->
  Date_new E et = Some t ->
  (lastUpdated w < t)%Z ->
  get record "eventName" = Ok name ->
  strict_eq_str name "ObjectCreated:Put" = false ->
  run E (callback E msg record) w
  = (Ok tt, {| lastUpdated := t; steps := S (S (steps w)) |},
     [ReadWatermark; WriteWatermark t]).
Proof.
  intros Hget Hdate Hlt Hname Hother.
  rewrite (run_callback E msg w Hget). unfold spec_accept.
  rewrite Hdate. apply Z.ltb_lt in Hlt. rewrite Hlt.
  destruct (get_total "s3" Hget) as (s3 & Hs3).
  rewrite (run_accepted E msg t (tick w) Hs3 Hname), Hother. reflexivity.
Qed.

(** ** The handler *)

Lemma statuses_app t1 t2 : statuses (t1 ++ t2) = statuses t1 ++ statuses t2.
Proof. unfold statuses. apply flat_map_app. Qed.

Lemma answer_no_status E X (op : operation X) w :
  statuses (trace (answer E op w)) = [].
Proof. destruct op; reflexivity. Qed.

(** The callback sends no status. *)
Lemma turn_no_status E A (p : prog A) : forall w,
  statuses (trace (turn E p w)) = [].
Proof.
  induction p as [a|e|X op k IH]; intro w; simpl; try reflexivity.
  pose proof (answer_no_status E op w) as Ha.
  destruct (answer E op w) as [[x wa] ta]. unfold trace in Ha. simpl in Ha.
  destruct (is_await op); [exact Ha|].
  specialize (IH x wa).
  destruct (turn E (k x) wa) as [[st2 w2] t2]. unfold trace in *. simpl in *.
  rewrite statuses_app, Ha, IH. reflexivity.
Qed.

Lemma forEach_no_status E snsMessage records : forall sv,
  statuses (snd (forEach E snsMessage records sv)) = [].
Proof.
  induction records as [|record records IH]; intro sv; simpl; [reflexivity|].
  pose proof (turn_no_status E (callback E snsMessage record) (world sv)) as Ht.
  destruct (turn E (callback E snsMessage record) (world sv)) as [[st w1] tr1].
  specialize (IH (file st sv w1)).
  destruct (forEach E snsMessage records (file st sv w1)) as [sv2 tr2].
  unfold trace in Ht. simpl in *. rewrite statuses_app, Ht, IH. reflexivity.
Qed.

(** When the envelope is read, the handler acknowledges with 200, once and
    last, whatever becomes of the records. *)
Lemma post_handler_acknowledges E body sv snsMessage records :
  envelope E body = Ok (snsMessage, records) ->
  outcome (post_handler E body sv) = Ok tt
  /\ exists tr, trace (post_handler E body sv) = tr ++ [SendStatus 200]
                /\ statuses tr = [].
Proof.
  intro H. unfold post_handler. rewrite H.
  pose proof (forEach_no_status E snsMessage records sv) as Hfe.
  destruct (forEach E snsMessage records sv) as [sv1 t1].
  split; [reflexivity|]. exists t1. split; [reflexivity|exact Hfe].
Qed.

(** C3, at the failing input. When [JSON.parse] throws on the body of the
    request (an envelope that cannot be parsed), the handler throws: its
    promise is rejected, nothing is logged and no status is ever sent. *)
Theorem unparseable_envelope_gets_no_response (E : Env) (body : value)
    (sv : Server) (e : error) :
  JSON_parse E body = Throw e ->
  post_handler E body sv = (Throw e, sv, [])
  /\ statuses (trace (post_handler E body sv)) = [].
Proof.
  intro H. unfold post_handler, envelope. rewrite H. split; reflexivity.
Qed.

(** ** A fetch that fails *)

Lemma run_await E A (op : operation (result A)) w :
  run E (await op) w = answer E op w.
Proof.
  unfold await. simpl. destruct (answer E op w) as [[x w1] t1].
  rewrite run_lift, app_nil_r. reflexivity.
Qed.

Lemma run_perform E X (op : operation X) w :
  run E (perform op) w =
  let '(x, w1, t1) := answer E op w in (Ok x, w1, t1).
Proof.
  unfold perform. simpl. destruct (answer E op w) as [[x w1] t1].
  rewrite app_nil_r. reflexivity.
Qed.

(** [fetchLogObject] when the storage or the decompression fails: the
    error is logged and the result is [null]. *)
Lemma run_fetchLogObject_failed E b o bn k e w :
  get b "name" = Ok bn ->
  get o "key" = Ok k ->
  (s3_getObject E (steps w) bn k = Throw e
   \/ exists body, s3_getObject E (steps w) bn k = Ok body
                   /\ ungzip E body = Throw e) ->
  exists w',
    run E (fetchLogObject {| bucket := b; logObject := o |}) w
    = (Ok None, w', [Fetch bn k; Logged (LogErr e)])
    /\ lastUpdated w' = lastUpdated w.
Proof.
  intros Hb Ho Hfail. unfold fetchLogObject. simpl bucket. simpl logObject.
  step_get Hb. step_get Ho.
  rewrite run_try_catch, run_bind, run_await.
  change (answer E (S3GetObject bn k) w)
    with (s3_getObject E (steps w) bn k, tick w, [Fetch bn k]).
  cbv beta iota.
  destruct Hfail as [->|(body & -> & Hz)].
  - eexists. split; [reflexivity|reflexivity].
  - rewrite run_bind, run_await.
    change (answer E (Ungzip body) (tick w))
      with (ungzip E body, tick (tick w), @nil event).
    rewrite Hz. eexists. split; [reflexivity|reflexivity].
Qed.

(** C4, at the failing input. An accepted ObjectCreated:Put event of a
    message of S3 (which has no property [bucket] of its own) whose fetch
    fails, in the storage or in the decompression: the error of the fetch
    is logged, nothing is parsed or submitted, and then the callback
    throws a TypeError while it builds the second message, which is never
    logged; the watermark is not advanced. *)
Theorem failed_fetch_raises_TypeError (E : Env) (msg record : value)
    (w : World) (et s3 b o bn k : value) (t : Z) (e : error) :
  get record "eventTime" = Ok et ->
  Date_new E et = Some t ->
  (lastUpdated w < t)%Z ->
  get record "eventName" = Ok (VStr (js "ObjectCreated:Put")) ->
  get record "s3" = Ok s3 ->
  get s3 "bucket" = Ok b ->
  get s3 "object" = Ok o ->
  get b "name" = Ok bn ->
  get o "key" = Ok k ->
  (s3_getObject E (S (steps w)) bn k = Throw e
   \/ exists body, s3_getObject E (S (steps w)) bn k = Ok body
                   /\ ungzip E body = Throw e) ->
  get msg "bucket" = Ok VUndefined ->
  outcome (run E (callback E msg record) w) = Throw TypeError
  /\ trace (run E (callback E msg record) w)
     = [ReadWatermark; Fetch bn k; Logged (LogErr e)]
  /\ posts (trace (run E (callback E msg record) w)) = []
  /\ lastUpdated (after (run E (callback E msg record) w)) = lastUpdated w.
Proof.
  intros Hget Hdate Hlt Hname Hs3 Hb Ho Hbn Hk Hfail Hmsg.
  rewrite (run_callback E msg w Hget). unfold spec_accept.
  rewrite Hdate. apply Z.ltb_lt in Hlt. rewrite Hlt.
  rewrite (run_accepted E msg t (tick w) Hs3 Hname).
  change (strict_eq_str (VStr (js "ObjectCreated:Put")) "ObjectCreated:Put")
    with true. cbv beta iota.
  unfold on_put. step_get Hb. step_get Ho.
  rewrite run_bind, run_await_call.
  destruct (@run_fetchLogObject_failed E b o bn k e (tick w) Hbn Hk Hfail)
    as (w' & -> & Hl).
  cbv beta iota. change (falsy None) with true. cbv beta iota.
  step_get Hmsg.
  rewrite run_bind. change (get VUndefined "name") with (@Throw value TypeError).
  rewrite run_lift. cbv beta iota.
  unfold outcome, trace, after. simpl. repeat split. exact Hl.
Qed.

(** ** A line that does not match *)

Lemma logArray_mixed_blob : logArray mixed_blob = [ex_line; bad_line; ex_line].
Proof. vm_compute. reflexivity. Qed.

Lemma ex_line_payload : jsonLogLine ex_line = Ok ex_payload.
Proof. vm_compute. reflexivity. Qed.

Lemma bad_line_throws : jsonLogLine bad_line = Throw TypeError.
Proof. vm_compute. reflexivity. Qed.

(** C1, at the failing input. A blob of three lines whose second line is
    not of the grammar: [sendToLoki] throws a TypeError at the second
    line, in every environment; the first line has been submitted and the
    third line, which is of the grammar, never is. *)
Theorem malformed_line_aborts_blob (E : Env) (w : World) :
  str_match bad_line re = None
  /\ str_match ex_line re <> None
  /\ logArray mixed_blob = [ex_line; bad_line; ex_line]
  /\ outcome (run E (sendToLoki mixed_blob) w) = Throw TypeError
  /\ map snd (posts (trace (run E (sendToLoki mixed_blob) w))) = [ex_payload].
Proof.
  split; [vm_compute; reflexivity|].
  split; [vm_compute; discriminate|].
  split; [exact logArray_mixed_blob|].
  unfold sendToLoki. rewrite logArray_mixed_blob.
  rewrite send_lines_cons, run_bind, ex_line_payload, run_lift. cbv beta iota.
  rewrite run_bind.
  destruct (post_line_run E ex_payload w) as (w1 & t1 & -> & Hposts & _).
  rewrite send_lines_cons, run_bind, bad_line_throws, run_lift. cbv beta iota.
  unfold outcome, trace. simpl fst. simpl snd.
  split; [reflexivity|]. rewrite app_nil_r, Hposts. reflexivity.
Qed.

(** ** The top level *)

(** C10, at the failing input. The top level of [main.js] throws a
    ReferenceError for [logs] at the expression of line 77; the handler of
    POST / is not registered and the listener is not started. *)
Theorem top_level_throws_ReferenceError :
  fst (TopLevel.start TopLevel.main_js) = Throw (ReferenceError "logs")
  /\ TopLevel.routed (snd (TopLevel.start TopLevel.main_js)) = false
  /\ TopLevel.listening (snd (TopLevel.start TopLevel.main_js)) = false
  /\ TopLevel.evaluate (TopLevel.hoisted TopLevel.main_js ++ TopLevel.globals)
       TopLevel.line77 = Throw (ReferenceError "logs").
Proof. repeat split. Qed.

(* ===================================================================== *)
(** * The theorems at concrete inputs *)
(* ===================================================================== *)

(** The end-to-end scenario: the match of the line of the example. *)
Example ex_line_groups : str_match ex_line re = Some ex_groups.
Proof. vm_compute. reflexivity. Qed.

Lemma matching_line_has_21_string_fields_witness :
  str_match ex_line re = Some ex_groups
  /\ jsonLogObj ex_line
     = Ok (combine (map js keys) (map Some (tl ex_groups))).
Proof.
  assert (H : str_match ex_line re = Some ex_groups)
    by (vm_compute; reflexivity).
  split; [exact H|].
  destruct (matching_line_has_21_string_fields H)
    as (_ & _ & _ & vs & Hg & _ & Hobj & _).
  injection Hg as <-. exact Hobj.
Defined.

(** C2, the counterexample. The record of the line of the example, which
    matches the pattern, has 21 fields and not 20. *)
Lemma matching_line_has_not_20_fields :
  str_match ex_line re <> None
  /\ ~ (exists obj, jsonLogObj ex_line = Ok obj /\ List.length obj = 20)
  /\ exists obj, jsonLogObj ex_line = Ok obj /\ List.length obj = 21.
Proof.
  split; [vm_compute; discriminate|].
  assert (H : exists obj, jsonLogObj ex_line = Ok obj /\ List.length obj = 21).
  { eexists. split; [vm_compute; reflexivity|reflexivity]. }
  split; [|exact H].
  destruct H as (obj & Hobj & Hlen). intros (obj' & Hobj' & Hlen').
  rewrite Hobj in Hobj'. injection Hobj' as <-. rewrite Hlen in Hlen'.
  discriminate Hlen'.
Qed.




Lemma watermark_read_first_written_last_witness :
  get (put t1 ok_key) "eventTime" = Ok (VStr t1)
  /\ exists mid fin,
       trace (run E (callback E msg_put_ok (put t1 ok_key)) w0)
       = ReadWatermark :: mid ++ fin
       /\ reads mid = 0 /\ writes mid = [].
Proof.
  assert (H : get (put t1 ok_key) "eventTime" = Ok (VStr t1)) by reflexivity.
  split; [exact H|].
  destruct (watermark_read_first_written_last E msg_put_ok w0 H)
    as (mid & fin & Htr & Hrd & Hwr & _).
  exists mid, fin. repeat split; assumption.
Defined.

(** C6, the counterexample. One ObjectCreated:Put event whose object is
    fetched and submitted: the watermark is written last, after the fetch
    and the request, and not before them. *)
Lemma watermark_written_after_fetch_and_submit :
  trace (run E (callback E msg_put_ok (put t1 ok_key)) w0)
  = [ ReadWatermark; Fetch alb_logs ok_key;
      Post (Date_now E 4 * 1000000) ex_payload;
      WriteWatermark 1672531201000 ]
  /\ ~ (exists pre post b k,
          trace (run E (callback E msg_put_ok (put t1 ok_key)) w0)
          = pre ++ Fetch b k :: post
          /\ writes pre <> []).
Proof.
  assert (H : trace (run E (callback E msg_put_ok (put t1 ok_key)) w0)
              = [ ReadWatermark; Fetch alb_logs ok_key;
                  Post (Date_now E 4 * 1000000) ex_payload;
                  WriteWatermark 1672531201000 ])
    by (vm_compute; reflexivity).
  split; [exact H|].
  rewrite H. intros (pre & post & b & k & Heq & Hw).
  destruct pre as [|e1 pre]; [apply Hw; reflexivity|].
  injection Heq as <- Heq.
  destruct pre as [|e2 pre]; [apply Hw; reflexivity|].
  injection Heq as <- Heq.
  destruct pre as [|e3 pre]; [discriminate Heq|].
  injection Heq as <- Heq.
  destruct pre as [|e4 pre]; [discriminate Heq|].
  injection Heq as <- Heq.
  destruct pre; discriminate Heq.
Qed.

Lemma other_event_only_advances_watermark_witness :
  run E (callback E msg_removed (removed t1 ok_key)) w0
  = (Ok tt, {| lastUpdated := 1672531201000; steps := 2 |},
     [ReadWatermark; WriteWatermark 1672531201000]).
Proof.
  apply (@other_event_only_advances_watermark E msg_removed (removed t1 ok_key)
           w0 (VStr t1) (VStr (js "ObjectRemoved:Delete")) 1672531201000%Z);
    reflexivity.
Defined.

(** C7, the counterexample. An accepted event whose name is
    ObjectRemoved:Delete changes the state: the watermark advances to the
    time of the event. *)
Lemma other_event_changes_watermark :
  get (removed t1 ok_key) "eventName" = Ok (VStr (js "ObjectRemoved:Delete"))
  /\ lastUpdated w0 = 1672531200000%Z
  /\ lastUpdated (after (run E (callback E msg_removed (removed t1 ok_key)) w0))
     = 1672531201000%Z
  /\ lastUpdated (after (run E (callback E msg_removed (removed t1 ok_key)) w0))
     <> lastUpdated w0.
Proof. repeat split. discriminate. Qed.

Lemma unparseable_envelope_gets_no_response_witness :
  JSON_parse E (VStr (js "not json")) = Throw SyntaxError
  /\ post_handler E (VStr (js "not json")) sv0 = (Throw SyntaxError, sv0, []).
Proof.
  assert (H : JSON_parse E (VStr (js "not json")) = Throw SyntaxError)
    by (vm_compute; reflexivity).
  split; [exact H|].
  exact (proj1 (unparseable_envelope_gets_no_response sv0 H)).
Defined.

Lemma failed_fetch_raises_TypeError_witness :
  outcome (run E (callback E msg_put_missing (put t1 missing_key)) w0)
  = Throw TypeError
  /\ trace (run E (callback E msg_put_missing (put t1 missing_key)) w0)
     = [ReadWatermark; Fetch alb_logs missing_key; Logged (LogErr (External 404))].
Proof.
  destruct (@failed_fetch_raises_TypeError E msg_put_missing
              (put t1 missing_key) w0 (VStr t1)
              (VObj [ (js "bucket", VObj [ (js "name", alb_logs) ]);
                      (js "object", VObj [ (js "key", missing_key) ]) ])
              (VObj [ (js "name", alb_logs) ]) (VObj [ (js "key", missing_key) ])
              alb_logs missing_key 1672531201000%Z (External 404))
    as (Hout & Htr & _); try reflexivity.
  - left. reflexivity.
  - split; [exact Hout|exact Htr].
Defined.

(* ===================================================================== *)
(** * Further properties of the code *)
(* ===================================================================== *)

(** ** What the matcher finds is a match *)

Section MatcherSound.

Variable R : Type.

Lemma lazy_star_sound p (k : cont R) s : forall pos caps res,
  lazy_star p k pos s caps = Some res ->
  exists l s', s = l ++ s' /\ forallb p l = true
               /\ k (pos + List.length l) s' caps = Some res.
Proof.
  induction s as [|c s IH]; intros pos caps res; simpl;
    destruct (k pos _ caps) eqn:Hk; intro H.
  - injection H as <-. exists [], []. simpl. rewrite Nat.add_0_r. auto.
  - discriminate.
  - injection H as <-. exists [], (c :: s). simpl. rewrite Nat.add_0_r. auto.
  - destruct (p c) eqn:Hp; [|discriminate].
    destruct (IH _ _ _ H) as (l & s' & -> & Hall & Hk').
    exists (c :: l), s'. simpl. rewrite Hp, Hall.
    rewrite <- Nat.add_succ_comm. auto.
Qed.

Lemma greedy_plus_sound p (k : cont R) s : forall pos caps res,
  greedy_plus p k pos s caps = Some res ->
  exists c l s', s = c :: l ++ s' /\ p c = true /\ forallb p l = true
                 /\ k (pos + S (List.length l)) s' caps = Some res.
Proof.
  induction s as [|c s IH]; intros pos caps res; simpl; [discriminate|].
  destruct (p c) eqn:Hp; [|discriminate].
  destruct (greedy_plus p k (S pos) s caps) eqn:Hg; intro H.
  - injection H as <-.
    destruct (IH _ _ _ Hg) as (c' & l & s' & -> & Hp' & Hall & Hk).
    exists c, (c' :: l), s'. simpl. rewrite Hp', Hall.
    rewrite Nat.add_succ_comm in Hk. auto.
  - exists c, [], s. simpl. rewrite Nat.add_1_r. auto.
Qed.

End MatcherSound.

Lemma m_sound r : forall R (k : cont R) pos s caps res,
  m r k pos s caps = Some res ->
  exists l s' caps',
    s = l ++ s' /\ matches r l caps'
    /\ k (pos + List.length l) s' (caps ++ caps') = Some res.
Proof.
  induction r as [| |p|p|p|name r IH|r1 IH1 r2 IH2];
    intros R k pos s caps res H; simpl in *.
  - exists [], s, []. simpl. rewrite Nat.add_0_r, app_nil_r.
    repeat split; [constructor|exact H].
  - destruct (Nat.eqb pos 0); [|discriminate].
    exists [], s, []. simpl. rewrite Nat.add_0_r, app_nil_r.
    repeat split; [constructor|exact H].
  - destruct s as [|c s]; [discriminate|].
    destruct (p c) eqn:Hp; [|discriminate].
    exists [c], s, []. simpl. rewrite Nat.add_1_r, app_nil_r.
    repeat split; [constructor; exact Hp|exact H].
  - apply lazy_star_sound in H. destruct H as (l & s' & -> & Hall & H).
    exists l, s', []. rewrite app_nil_r.
    repeat split; [constructor; exact Hall|exact H].
  - apply greedy_plus_sound in H.
    destruct H as (c & l & s' & -> & Hp & Hall & H).
    exists (c :: l), s', []. rewrite app_nil_r.
    repeat split; [constructor; assumption|exact H].
  - apply IH in H. destruct H as (l & s' & caps' & -> & Hm & H).
    exists l, s', (caps' ++ [l]).
    split; [reflexivity|]. split; [constructor; exact Hm|].
    replace (pos + List.length l - pos) with (List.length l) in H by lia.
    rewrite firstn_app, Nat.sub_diag, firstn_all in H. simpl in H.
    rewrite app_nil_r, <- app_assoc in H. exact H.
  - apply IH1 in H. destruct H as (l1 & s1 & caps1 & -> & Hm1 & H).
    apply IH2 in H. destruct H as (l2 & s2 & caps2 & -> & Hm2 & H).
    exists (l1 ++ l2), s2, (caps1 ++ caps2).
    split; [rewrite app_assoc; reflexivity|].
    split; [constructor; assumption|].
    rewrite length_app, Nat.add_assoc, app_assoc. exact H.
Qed.

Lemma match_at_sound r pos s a :
  match_at r pos s = Some a ->
  exists l s' caps, s = l ++ s' /\ matches r l caps /\ a = l :: caps.
Proof.
  unfold match_at. intro H. apply m_sound in H.
  destruct H as (l & s' & caps & -> & Hm & H).
  exists l, s', caps. split; [reflexivity|]. split; [exact Hm|].
  injection H as <-.
  replace (pos + List.length l - pos) with (List.length l) by lia.
  rewrite firstn_app, Nat.sub_diag, firstn_all. simpl. rewrite app_nil_r.
  reflexivity.
Qed.

(** [re] starts with [^]: it matches at index 0 or not at all. *)
Lemma re_anchored pos s : match_at re (S pos) s = None.
Proof. reflexivity. Qed.

Lemma exec_from_re_later s : forall pos, exec_from re (S pos) s = None.
Proof.
  induction s as [|c s IH]; intro pos; cbn [exec_from];
    rewrite re_anchored; [reflexivity|apply IH].
Qed.

Lemma str_match_re_at_0 line : str_match line re = match_at re 0 line.
Proof.
  unfold str_match. destruct line as [|c line]; cbn [exec_from];
    destruct (match_at re 0 _); try reflexivity.
  apply exec_from_re_later.
Qed.

Lemma str_match_re_sound line groups :
  str_match line re = Some groups ->
  exists whole rest vs,
    line = whole ++ rest /\ matches re whole vs /\ groups = whole :: vs.
Proof.
  rewrite str_match_re_at_0. intro H. apply match_at_sound in H.
  destruct H as (l & s' & caps & -> & Hm & ->). eauto 6.
Qed.

(** ** What a match is made of *)

Lemma infix_refl a : infix a a.
Proof. exists [], []. simpl. rewrite app_nil_r. reflexivity. Qed.

Lemma infix_app_l a b c : infix a b -> infix a (b ++ c).
Proof.
  intros (pre & post & ->). exists pre, (post ++ c).
  rewrite <- !app_assoc. reflexivity.
Qed.

Lemma infix_app_r a b c : infix a c -> infix a (b ++ c).
Proof.
  intros (pre & post & ->). exists (b ++ pre), post.
  rewrite <- !app_assoc. reflexivity.
Qed.

Lemma matches_captures_infix r l caps :
  matches r l caps -> Forall (fun v => infix v l) caps.
Proof.
  induction 1 as [| | | | |name r l caps _ IH|r1 r2 l1 l2 c1 c2 _ IH1 _ IH2];
    try constructor.
  - apply Forall_app. split; [exact IH|]. constructor; [apply infix_refl|constructor].
  - apply Forall_app. split.
    + eapply Forall_impl; [|exact IH1]. intros v. apply infix_app_l.
    + eapply Forall_impl; [|exact IH2]. intros v. apply infix_app_r.
Qed.

Lemma matches_alphabet r l caps :
  matches r l caps -> forallb (alphabet r) l = true.
Proof.
  induction 1 as [| |p c Hp|p l Hall|p c l Hp Hall|name r l caps _ IH
                  |r1 r2 l1 l2 c1 c2 _ IH1 _ IH2];
    apply forallb_forall; intros x Hx; simpl.
  - contradiction.
  - contradiction.
  - destruct Hx as [<-|[]]. exact Hp.
  - rewrite forallb_forall in Hall. auto.
  - rewrite forallb_forall in Hall. destruct Hx as [<-|Hx]; auto.
  - rewrite forallb_forall in IH. auto.
  - rewrite forallb_forall in IH1, IH2. apply in_app_or in Hx.
    destruct Hx as [Hx|Hx]; [rewrite (IH1 x Hx)|rewrite (IH2 x Hx)];
      auto using orb_true_r.
Qed.

Lemma matches_minlen r l caps :
  matches r l caps -> minlen r <= List.length l.
Proof.
  induction 1; simpl; try lia. rewrite length_app. lia.
Qed.

(** Each capture is a match of the body of its group. *)
Lemma matches_groups r l caps :
  matches r l caps ->
  Forall2 (fun v g => exists caps', matches g v caps') caps (groups_of r).
Proof.
  induction 1 as [| | | | |name r l caps Hm IH|r1 r2 l1 l2 c1 c2 _ IH1 _ IH2];
    simpl; try constructor.
  - apply Forall2_app; [exact IH|]. constructor; [eauto|constructor].
  - apply Forall2_app; assumption.
Qed.

Lemma digit_dot c : digit c = true -> dot c = true.
Proof.
  unfold digit, dot. intro H. apply andb_true_iff in H. destruct H as [H1 H2].
  apply N.leb_le in H1. apply N.leb_le in H2.
  destruct (N.eqb_spec c 10); [lia|]. destruct (N.eqb_spec c 13); [lia|].
  destruct (N.eqb_spec c 8232); [lia|]. destruct (N.eqb_spec c 8233); [lia|].
  reflexivity.
Qed.

(** No group of [re] can take a line terminator. *)
Lemma re_group_alphabets :
  Forall (fun g => forall c, alphabet g c = true -> dot c = true) (groups_of re).
Proof.
  repeat constructor; intros c H; simpl in H; try exact H;
    apply digit_dot; exact H.
Qed.

Lemma Forall2_Forall_l (A B : Type) (P : A -> B -> Prop) (Q : B -> Prop)
    (S : A -> Prop) l1 l2 :
  (forall a b, P a b -> Q b -> S a) ->
  Forall2 P l1 l2 -> Forall Q l2 -> Forall S l1.
Proof.
  intro HPQ. induction 1 as [|a b l1 l2 Hab _ IH]; intro HQ; constructor;
    inversion HQ; subst; eauto.
Qed.

Lemma Forall2_nth_error_r (A B : Type) (P : A -> B -> Prop) l1 l2 :
  Forall2 P l1 l2 -> forall i b, nth_error l2 i = Some b ->
  exists a, nth_error l1 i = Some a /\ P a b.
Proof.
  induction 1 as [|a b l1 l2 Hab _ IH]; intros [|i] y Hy; simpl in *;
    try discriminate.
  - injection Hy as <-. eauto.
  - eauto.
Qed.

(** X5. A match of the pattern starts at the first character of the line:
    the matched text is a prefix of the line, every one of the 21 captures
    is a piece of the matched text, and no capture holds a line terminator
    (newline, carriage return, U+2028 or U+2029). *)
Theorem match_is_prefix_and_fields_are_pieces (line : jsstring)
    (groups : list jsstring) :
  str_match line re = Some groups ->
  exists whole rest vs,
    groups = whole :: vs
    /\ line = whole ++ rest
    /\ Forall (fun v => infix v whole /\ forallb dot v = true) vs.
Proof.
  intro H. destruct (str_match_re_sound H) as (whole & rest & vs & -> & Hm & ->).
  exists whole, rest, vs. split; [reflexivity|]. split; [reflexivity|].
  apply Forall_and; [exact (matches_captures_infix Hm)|].
  eapply Forall2_Forall_l; [|exact (matches_groups Hm)|exact re_group_alphabets].
  intros v g (caps' & Hg) Hdot. apply matches_alphabet in Hg.
  rewrite forallb_forall in *. auto.
Qed.

Lemma match_is_prefix_and_fields_are_pieces_witness :
  str_match ex_line re = Some ex_groups
  /\ exists whole rest vs,
       ex_groups = whole :: vs /\ ex_line = whole ++ rest
       /\ Forall (fun v => infix v whole /\ forallb dot v = true) vs.
Proof.
  assert (H : str_match ex_line re = Some ex_groups) by (vm_compute; reflexivity).
  split; [exact H|]. exact (match_is_prefix_and_fields_are_pieces H).
Defined.

(** X6. In the record of a matching line the field match_priority
    (capture 17 of the match) is a non-empty string of decimal digits. *)
Theorem match_priority_is_digits (line : jsstring) (groups : list jsstring) :
  str_match line re = Some groups ->
  nth_error keys 16 = Some "match_priority"%string
  /\ exists v, nth_error groups 17 = Some v
               /\ v <> [] /\ forallb digit v = true.
Proof.
  intro H. split; [reflexivity|].
  destruct (str_match_re_sound H) as (whole & rest & vs & -> & Hm & ->).
  assert (Hg : nth_error (groups_of re) 16 = Some (GreedyPlus digit))
    by reflexivity.
  destruct (Forall2_nth_error_r (matches_groups Hm) Hg) as (v & Hv & caps' & Hmv).
  exists v. split; [exact Hv|]. split.
  - apply matches_minlen in Hmv. simpl in Hmv. intros ->. simpl in Hmv. lia.
  - exact (matches_alphabet Hmv).
Qed.

Lemma match_priority_is_digits_witness :
  str_match ex_line re = Some ex_groups
  /\ exists v, nth_error ex_groups 17 = Some v
               /\ v <> [] /\ forallb digit v = true.
Proof.
  assert (H : str_match ex_line re = Some ex_groups) by (vm_compute; reflexivity).
  split; [exact H|]. exact (proj2 (match_priority_is_digits H)).
Defined.

(** X7. A line of fewer than 46 code units (the separators, quotes, dashes
    and the digit that the pattern requires), a blank line among them,
    never matches: [line.match(re)] is [null] and building the record
    throws a TypeError. *)
Theorem short_line_never_matches (line : jsstring) :
  List.length line < 46 ->
  str_match line re = None /\ jsonLogLine line = Throw TypeError.
Proof.
  intro Hlen.
  assert (Hnone : str_match line re = None).
  { destruct (str_match line re) as [groups|] eqn:Hm; [|reflexivity].
    destruct (str_match_re_sound Hm) as (whole & rest & vs & -> & Hmatch & _).
    apply matches_minlen in Hmatch. change (minlen re) with 46 in Hmatch.
    rewrite length_app in Hlen. lia. }
  split; [exact Hnone|].
  unfold jsonLogLine, jsonLogObj. rewrite Hnone. reflexivity.
Qed.

Lemma short_line_never_matches_witness :
  List.length (@nil char) < 46
  /\ str_match [] re = None /\ jsonLogLine [] = Throw TypeError.
Proof.
  assert (H : List.length (@nil char) < 46) by (simpl; lia).
  split; [exact H|]. exact (short_line_never_matches H).
Defined.

(** ** The lines of any blob *)

Lemma split_nl_no_nl tail : ~ In NL tail -> split_nl tail = [tail].
Proof.
  induction tail as [|c tail IH]; intro Hnl; simpl; [reflexivity|].
  assert (Hc : char_eqb c NL = false).
  { unfold char_eqb. apply N.eqb_neq. intro Heq. apply Hnl. left. exact Heq. }
  rewrite Hc, IH; [reflexivity|]. intro Hin. apply Hnl. right. exact Hin.
Qed.

Lemma split_nl_unlines lines tail :
  Forall (fun l => ~ In NL l) lines -> ~ In NL tail ->
  split_nl (unlines lines ++ tail) = lines ++ [tail].
Proof.
  intros Hlines Htail. unfold unlines.
  induction Hlines as [|l lines Hl _ IH]; simpl.
  - apply split_nl_no_nl. exact Htail.
  - rewrite <- !app_assoc. simpl. rewrite split_nl_line by assumption.
    rewrite IH. reflexivity.
Qed.

(** Every blob is some terminated lines and a tail without a newline, and
    [split] finds them. *)
Lemma split_nl_decomposition s :
  exists lines tail,
    split_nl s = lines ++ [tail]
    /\ s = unlines lines ++ tail
    /\ Forall (fun l => ~ In NL l) lines
    /\ ~ In NL tail.
Proof.
  induction s as [|c s (lines & tail & Hsplit & Hs & Hlines & Htail)].
  - exists [], []. repeat split; auto.
  - simpl. destruct (char_eqb c NL) eqn:Hc.
    + apply N.eqb_eq in Hc. subst c.
      exists ([] :: lines), tail. rewrite Hsplit, Hs.
      repeat split; auto.
    + assert (Hne : c <> NL) by (apply N.eqb_neq; exact Hc).
      rewrite Hsplit. destruct lines as [|l lines]; simpl.
      * exists [], (c :: tail). simpl in Hs. subst s.
        repeat split; auto. intros [Heq|Hin]; auto.
      * exists ((c :: l) :: lines), tail. rewrite Hs.
        inversion Hlines as [|? ? Hl Hrest]; subst.
        repeat split; auto.
        constructor; [|exact Hrest]. intros [Heq|Hin]; auto.
Qed.

(** X1. For every blob, the lines that [sendToLoki] walks through, each
    put back with its newline, are the blob up to and including its last
    newline; what is left out is the text after the last newline, and no
    line holds a newline. *)
Theorem logArray_is_the_blob_up_to_its_last_newline (logData : jsstring) :
  exists tail,
    logData = unlines (logArray logData) ++ tail
    /\ ~ In NL tail
    /\ Forall (fun l => ~ In NL l) (logArray logData)
    /\ split_nl logData = logArray logData ++ [tail].
Proof.
  destruct (split_nl_decomposition logData)
    as (lines & tail & Hsplit & Hs & Hlines & Htail).
  exists tail. unfold logArray, pop. rewrite Hsplit, removelast_last.
  repeat split; assumption.
Qed.

(** X2. A last line without its newline (a truncated line, or a whole blob
    without any newline) is dropped without a trace: the blob is handled
    exactly as the blob without that text. *)
Theorem unterminated_tail_is_dropped (lines : list jsstring)
    (tail : jsstring) :
  Forall (fun l => ~ In NL l) lines ->
  ~ In NL tail ->
  logArray (unlines lines ++ tail) = lines
  /\ (forall E w,
        run E (sendToLoki (unlines lines ++ tail)) w
        = run E (sendToLoki (unlines lines)) w)
  /\ (forall E w, run E (sendToLoki tail) w = (Ok tt, w, [])).
Proof.
  intros Hlines Htail.
  assert (H1 : logArray (unlines lines ++ tail) = lines).
  { unfold logArray, pop. rewrite (split_nl_unlines Hlines Htail).
    apply removelast_last. }
  assert (H2 : logArray (unlines lines) = lines).
  { rewrite <- (app_nil_r (unlines lines)). unfold logArray, pop.
    rewrite (split_nl_unlines Hlines (@in_nil _ NL)). apply removelast_last. }
  split; [exact H1|]. split.
  - intros E w. unfold sendToLoki. rewrite H1, H2. reflexivity.
  - intros E w. unfold sendToLoki, logArray, pop.
    rewrite (split_nl_no_nl Htail). reflexivity.
Qed.

Lemma unterminated_tail_is_dropped_witness :
  logArray (unlines [js "lineA"] ++ js "lineB") = [js "lineA"]
  /\ run E (sendToLoki (js "lineB")) w0 = (Ok tt, w0, []).
Proof.
  assert (HA : Forall (fun l => ~ In NL l) [js "lineA"]).
  { repeat constructor; simpl; intro H;
      repeat (destruct H as [H|H]; [discriminate H|]); exact H. }
  assert (HB : ~ In NL (js "lineB")).
  { simpl; intro H; repeat (destruct H as [H|H]; [discriminate H|]); exact H. }
  destruct (unterminated_tail_is_dropped HA HB) as (H1 & _ & H3).
  split; [exact H1|apply H3].
Defined.

(** ** The loop, line by line *)


Lemma logged_app t1 t2 : logged (t1 ++ t2) = logged t1 ++ logged t2.
Proof. unfold logged. apply flat_map_app. Qed.

Lemma send_lines_stops E good bad rest :
  Forall (fun line => str_match line re <> None) good ->
  str_match bad re = None ->
  forall w, exists w' t,
    run E (send_lines (good ++ bad :: rest)) w = (Throw TypeError, w', t)
    /\ Forall2 (fun line p => jsonLogLine line = Ok (snd p)) good (posts t)
    /\ lastUpdated w' = lastUpdated w.
Proof.
  intros Hgood Hbad. induction Hgood as [|line good Hline _ IH]; intro w.
  - exists w, []. simpl app. rewrite send_lines_cons, run_bind.
    unfold jsonLogLine, jsonLogObj. rewrite Hbad.
    repeat split. constructor.
  - destruct (matching_jsonLogLine Hline) as (groups & vs & _ & _ & _ & Hp).
    change ((line :: good) ++ bad :: rest) with (line :: good ++ bad :: rest).
    rewrite send_lines_cons, run_bind, Hp, run_lift. cbv beta iota.
    rewrite run_bind.
    destruct (post_line_run E (JSON_stringify (combine (map js keys) (map Some vs))) w)
      as (w1 & t1 & Hrun & Hposts & _).
    pose proof (quiet_run (quiet_post_line _) Hrun) as (Hl1 & _).
    rewrite Hrun.
    destruct (IH w1) as (w2 & t2 & -> & Hall & Hl2).
    exists w2, (t1 ++ t2). split; [reflexivity|].
    rewrite posts_app, Hposts. split; [|congruence].
    constructor; [exact Hp|exact Hall].
Qed.

(** X3. The loop of [sendToLoki] stops at the first line that is not of
    the grammar: the lines before it have been submitted, one request
    each and in order, and then the call is rejected with a TypeError;
    no line after it is parsed or submitted, whatever it is. *)
Theorem first_bad_line_stops_the_loop (E : Env) (logData : jsstring)
    (good : list jsstring) (bad : jsstring) (rest : list jsstring) (w : World) :
  logArray logData = good ++ bad :: rest ->
  Forall (fun line => str_match line re <> None) good ->
  str_match bad re = None ->
  outcome (run E (sendToLoki logData) w) = Throw TypeError
  /\ Forall2 (fun line p => jsonLogLine line = Ok (snd p)) good
       (posts (trace (run E (sendToLoki logData) w)))
  /\ List.length (posts (trace (run E (sendToLoki logData) w)))
     = List.length good.
Proof.
  intros Hlines Hgood Hbad. unfold sendToLoki. rewrite Hlines.
  destruct (send_lines_stops E rest Hgood Hbad w) as (w' & t & -> & Hall & _).
  unfold outcome, trace. simpl fst. simpl snd.
  split; [reflexivity|]. split; [exact Hall|].
  symmetry. exact (Forall2_length Hall).
Qed.

Lemma first_bad_line_stops_the_loop_witness :
  outcome (run E (sendToLoki mixed_blob) w0) = Throw TypeError
  /\ List.length (posts (trace (run E (sendToLoki mixed_blob) w0))) = 1.
Proof.
  assert (H1 : logArray mixed_blob = [ex_line] ++ bad_line :: [ex_line])
    by (vm_compute; reflexivity).
  assert (H2 : Forall (fun line => str_match line re <> None) [ex_line])
    by (repeat constructor; vm_compute; discriminate).
  assert (H3 : str_match bad_line re = None) by (vm_compute; reflexivity).
  destruct (first_bad_line_stops_the_loop E w0 H1 H2 H3) as (Ho & _ & Hl).
  split; [exact Ho|exact Hl].
Defined.




(** ** [fetchLogObject] *)

Lemma get_throws v k e : get v k = Throw e -> e = TypeError.
Proof.
  destruct v; simpl; intro H; try discriminate; try congruence.
  destruct (lookup (js k) fields); discriminate.
Qed.

(** [fetchLogObject], by what the storage and the decompression answer. *)
Lemma run_fetchLogObject E d bn k w :
  get (bucket d) "name" = Ok bn ->
  get (logObject d) "key" = Ok k ->
  run E (fetchLogObject d) w =
  match s3_getObject E (steps w) bn k with
  | Ok body =>
      match ungzip E body with
      | Ok data => (Ok (Some data), tick (tick w), [Fetch bn k])
      | Throw e =>
          (Ok None, tick (tick (tick w)), [Fetch bn k; Logged (LogErr e)])
      end
  | Throw e => (Ok None, tick (tick w), [Fetch bn k; Logged (LogErr e)])
  end.
Proof.
  intros Hb Ho. unfold fetchLogObject.
  step_get Hb. step_get Ho.
  rewrite run_try_catch, run_bind, run_await.
  change (answer E (S3GetObject bn k) w)
    with (s3_getObject E (steps w) bn k, tick w, [Fetch bn k]).
  cbv beta iota.
  destruct (s3_getObject E (steps w) bn k) as [body|e]; [|reflexivity].
  rewrite run_bind, run_await.
  change (answer E (Ungzip body) (tick w))
    with (ungzip E body, tick (tick w), @nil event).
  destruct (ungzip E body) as [data|e]; reflexivity.
Qed.

(** X8. Once its two parameters are read, [fetchLogObject] never rejects,
    asks the storage once, and leaves the watermark alone: it returns the
    decompressed text and logs nothing when the storage and the
    decompression succeed, and returns [null] after logging the error
    when either fails. *)
Theorem fetchLogObject_catches_every_failure (E : Env) (d : details)
    (bn k : value) (w : World) :
  get (bucket d) "name" = Ok bn ->
  get (logObject d) "key" = Ok k ->
  fetches (trace (run E (fetchLogObject d) w)) = [(bn, k)]
  /\ posts (trace (run E (fetchLogObject d) w)) = []
  /\ writes (trace (run E (fetchLogObject d) w)) = []
  /\ lastUpdated (after (run E (fetchLogObject d) w)) = lastUpdated w
  /\ match s3_getObject E (steps w) bn k with
     | Ok body =>
         match ungzip E body with
         | Ok data =>
             outcome (run E (fetchLogObject d) w) = Ok (Some data)
             /\ logged (trace (run E (fetchLogObject d) w)) = []
         | Throw e =>
             outcome (run E (fetchLogObject d) w) = Ok None
             /\ logged (trace (run E (fetchLogObject d) w)) = [LogErr e]
         end
     | Throw e =>
         outcome (run E (fetchLogObject d) w) = Ok None
         /\ logged (trace (run E (fetchLogObject d) w)) = [LogErr e]
     end.
Proof.
  intros Hb Ho. rewrite (run_fetchLogObject E w Hb Ho).
  destruct (s3_getObject E (steps w) bn k) as [body|e];
    [destruct (ungzip E body) as [data|e]|]; repeat split.
Qed.

Lemma fetchLogObject_catches_every_failure_witness :
  outcome (run E (fetchLogObject
             {| bucket := VObj [ (js "name", alb_logs) ];
                logObject := VObj [ (js "key", ok_key) ] |}) w0)
  = Ok (Some ok_blob)
  /\ outcome (run E (fetchLogObject
                {| bucket := VObj [ (js "name", alb_logs) ];
                   logObject := VObj [ (js "key", missing_key) ] |}) w0)
     = Ok None.
Proof.
  split.
  - destruct (@fetchLogObject_catches_every_failure E
                {| bucket := VObj [ (js "name", alb_logs) ];
                   logObject := VObj [ (js "key", ok_key) ] |}
                alb_logs ok_key w0 eq_refl eq_refl) as (_ & _ & _ & _ & H).
    exact (proj1 H).
  - destruct (@fetchLogObject_catches_every_failure E
                {| bucket := VObj [ (js "name", alb_logs) ];
                   logObject := VObj [ (js "key", missing_key) ] |}
                alb_logs missing_key w0 eq_refl eq_refl) as (_ & _ & _ & _ & H).
    exact (proj1 H).
Defined.

(** ** ObjectCreated:Put records *)

Lemma is_put_name record :
  is_put record = true ->
  exists name, get record "eventName" = Ok name
               /\ strict_eq_str name "ObjectCreated:Put" = true.
Proof.
  unfold is_put. destruct (get record "eventName") as [name|e];
    [eauto|discriminate].
Qed.

Lemma coordinates_ok s3 bn k :
  coordinates s3 = Ok (bn, k) ->
  exists b o, get s3 "bucket" = Ok b /\ get s3 "object" = Ok o
              /\ get b "name" = Ok bn /\ get o "key" = Ok k.
Proof.
  unfold coordinates.
  destruct (get s3 "bucket") as [b|] eqn:Hb; [|discriminate].
  destruct (get s3 "object") as [o|] eqn:Ho; [|discriminate].
  destruct (get b "name") as [n|] eqn:Hn; [|discriminate].
  destruct (get o "key") as [k'|] eqn:Hk; [|discriminate].
  intro H. injection H as <- <-. exists b, o. auto.
Qed.

(** The diagnostic of line 171. *)
Lemma run_diagnostic E snsMessage w :
  run E (mb <- lift (get snsMessage "bucket") ;;
         name <- lift (get mb "name") ;;
         mo <- lift (get snsMessage "object") ;;
         key <- lift (get mo "Key") ;;
         perform (ConsoleLog (LogNoLogData name key))) w =
  match diagnostic snsMessage with
  | Ok msg => (Ok tt, tick w, [Logged msg])
  | Throw e => (Throw e, w, [])
  end.
Proof.
  unfold diagnostic.
  rewrite run_bind, run_lift.
  destruct (get snsMessage "bucket") as [mb|e]; [|reflexivity]. cbv beta iota.
  rewrite run_bind, run_lift.
  destruct (get mb "name") as [name|e]; [|reflexivity]. cbv beta iota.
  rewrite run_bind, run_lift.
  destruct (get snsMessage "object") as [mo|e]; [|reflexivity]. cbv beta iota.
  rewrite run_bind, run_lift.
  destruct (get mo "Key") as [key|e]; reflexivity.
Qed.

Lemma run_on_put_no_coordinates E msg s3 e w :
  coordinates s3 = Throw e ->
  exists w', run E (on_put msg s3) w = (Throw TypeError, w', [])
             /\ lastUpdated w' = lastUpdated w.
Proof.
  unfold coordinates, on_put. rewrite run_bind, run_lift.
  destruct (get s3 "bucket") as [b|e1] eqn:Hb.
  2:{ intros _. apply get_throws in Hb. subst e1. eauto. }
  cbv beta iota. rewrite run_bind, run_lift.
  destruct (get s3 "object") as [o|e1] eqn:Ho.
  2:{ intros _. apply get_throws in Ho. subst e1. eauto. }
  cbv beta iota. rewrite run_bind, run_await_call.
  unfold fetchLogObject. cbn [bucket logObject]. rewrite run_bind, run_lift.
  destruct (get b "name") as [bn|e1] eqn:Hn.
  2:{ intros _. apply get_throws in Hn. subst e1. eexists. split; reflexivity. }
  cbv beta iota. rewrite run_bind, run_lift.
  destruct (get o "key") as [k|e1] eqn:Hk; [discriminate|].
  intros _. apply get_throws in Hk. subst e1. eexists. split; reflexivity.
Qed.

(** X9. An accepted ObjectCreated:Put record from which the bucket name or
    the key cannot be read (no [s3], no [s3.bucket] or no [s3.object]):
    the callback throws a TypeError before the storage is asked for
    anything; nothing is logged and the watermark is not advanced. *)
Theorem record_without_coordinates_throws (E : Env) (msg record : value)
    (w : World) (et s3 : value) (t : Z) (e : error) :
  get record "eventTime" = Ok et ->
  Date_new E et = Some t ->
  (lastUpdated w < t)%Z ->
  is_put record = true ->
  get record "s3" = Ok s3 ->
  coordinates s3 = Throw e ->
  outcome (run E (callback E msg record) w) = Throw TypeError
  /\ trace (run E (callback E msg record) w) = [ReadWatermark]
  /\ lastUpdated (after (run E (callback E msg record) w)) = lastUpdated w.
Proof.
  intros Hget Hdate Hlt Hput Hs3 Hco.
  destruct (is_put_name Hput) as (name & Hname & Hstrict).
  rewrite (run_callback E msg w Hget). unfold spec_accept.
  rewrite Hdate. apply Z.ltb_lt in Hlt. rewrite Hlt.
  rewrite (run_accepted E msg t (tick w) Hs3 Hname), Hstrict.
  destruct (run_on_put_no_coordinates E msg (tick w) Hco) as (w' & -> & Hl).
  unfold outcome, trace, after. simpl. repeat split. exact Hl.
Qed.

Lemma record_without_coordinates_throws_witness :
  let record := VObj [ (js "eventName", VStr (js "ObjectCreated:Put"));
                       (js "eventTime", VStr t1) ] in
  outcome (run E (callback E (message [record]) record) w0) = Throw TypeError
  /\ trace (run E (callback E (message [record]) record) w0) = [ReadWatermark].
Proof.
  intro record.
  destruct (@record_without_coordinates_throws E (message [record]) record w0
              (VStr t1) VUndefined 1672531201000%Z TypeError)
    as (Ho & Ht & _); try reflexivity.
  split; [exact Ho|exact Ht].
Defined.

(** X10. An object that decompresses to the empty string is taken for a
    failed fetch, though [fetchLogObject] has logged nothing: no request
    is made and line 171 builds its diagnostic; when the message carries
    what the template reads, the diagnostic is logged and the watermark
    advances, and otherwise the callback throws there and the watermark
    stays. *)
Theorem empty_object_is_taken_for_a_failed_fetch (E : Env)
    (msg record : value) (w : World) (et s3 bn k : value) (t : Z)
    (body : bytes) :
  get record "eventTime" = Ok et ->
  Date_new E et = Some t ->
  (lastUpdated w < t)%Z ->
  is_put record = true ->
  get record "s3" = Ok s3 ->
  coordinates s3 = Ok (bn, k) ->
  s3_getObject E (S (steps w)) bn k = Ok body ->
  ungzip E body = Ok [] ->
  posts (trace (run E (callback E msg record) w)) = []
  /\ match diagnostic msg with
     | Ok m =>
         outcome (run E (callback E msg record) w) = Ok tt
         /\ trace (run E (callback E msg record) w)
            = [ReadWatermark; Fetch bn k; Logged m; WriteWatermark t]
         /\ lastUpdated (after (run E (callback E msg record) w)) = t
     | Throw _ =>
         outcome (run E (callback E msg record) w) = Throw TypeError
         /\ trace (run E (callback E msg record) w)
            = [ReadWatermark; Fetch bn k]
         /\ lastUpdated (after (run E (callback E msg record) w))
            = lastUpdated w
     end.
Proof.
  intros Hget Hdate Hlt Hput Hs3 Hco Hfetch Hzip.
  destruct (is_put_name Hput) as (name & Hname & Hstrict).
  destruct (coordinates_ok Hco) as (b & o & Hb & Ho & Hbn & Hk).
  rewrite (run_callback E msg w Hget). unfold spec_accept.
  rewrite Hdate. apply Z.ltb_lt in Hlt. rewrite Hlt.
  rewrite (run_accepted E msg t (tick w) Hs3 Hname), Hstrict.
  unfold on_put. step_get Hb. step_get Ho.
  rewrite run_bind, run_await_call.
  rewrite (@run_fetchLogObject E {| bucket := b; logObject := o |} bn k (tick w)
             Hbn Hk).
  change (steps (tick w)) with (S (steps w)). rewrite Hfetch, Hzip.
  cbv beta iota. change (falsy (Some [])) with true. cbv beta iota.
  rewrite run_diagnostic.
  destruct (diagnostic msg) as [m|e] eqn:Hd.
  - unfold outcome, trace, after. simpl. repeat split.
  - assert (e = TypeError).
    { unfold diagnostic in Hd.
      destruct (get msg "bucket") as [mb|] eqn:H1;
        [|injection Hd as <-; exact (get_throws H1)].
      destruct (get mb "name") as [n|] eqn:H2;
        [|injection Hd as <-; exact (get_throws H2)].
      destruct (get msg "object") as [mo|] eqn:H3;
        [|injection Hd as <-; exact (get_throws H3)].
      destruct (get mo "Key") as [key|] eqn:H4;
        [discriminate|injection Hd as <-; exact (get_throws H4)]. }
    subst e. unfold outcome, trace, after. simpl. repeat split.
Qed.

Lemma empty_object_is_taken_for_a_failed_fetch_witness :
  outcome (run E_empty (callback E_empty msg_put_ok (put t1 ok_key)) w0)
  = Throw TypeError
  /\ trace (run E_empty (callback E_empty msg_put_ok (put t1 ok_key)) w0)
     = [ReadWatermark; Fetch alb_logs ok_key].
Proof.
  destruct (@empty_object_is_taken_for_a_failed_fetch E_empty msg_put_ok
              (put t1 ok_key) w0 (VStr t1)
              (VObj [ (js "bucket", VObj [ (js "name", alb_logs) ]);
                      (js "object", VObj [ (js "key", ok_key) ]) ])
              alb_logs ok_key 1672531201000%Z ok_gz)
    as (_ & H); try reflexivity.
  change (diagnostic msg_put_ok) with (@Throw logmsg TypeError) in H.
  destruct H as (Ho & Ht & _). split; [exact Ho|exact Ht].
Defined.

(** ** The first turn of a call *)

Lemma turn_bind E A B (p : prog A) (f : A -> prog B) : forall w,
  turn E (bind p f) w =
  let '(st, w1, t1) := turn E p w in
  match st with
  | Settled (Ok a) =>
      let '(st2, w2, t2) := turn E (f a) w1 in (st2, w2, t1 ++ t2)
  | Settled (Throw e) => (Settled (Throw e), w1, t1)
  | Suspended rest => (Suspended (bind rest f), w1, t1)
  end.
Proof.
  induction p as [a|e|X op k IH]; intro w; simpl.
  - destruct (turn E (f a) w) as [[st2 w2] t2]. reflexivity.
  - reflexivity.
  - destruct (answer E op w) as [[x w1] t1].
    destruct (is_await op); [reflexivity|]. rewrite IH.
    destruct (turn E (k x) w1) as [[st w2] t2].
    destruct st as [[a|e]|rest]; try reflexivity.
    destruct (turn E (f a) w2) as [[st3 w3] t3]. rewrite app_assoc. reflexivity.
Qed.

Lemma turn_try_catch E A (p : prog A) (h : error -> prog A) : forall w,
  turn E (try_catch p h) w =
  let '(st, w1, t1) := turn E p w in
  match st with
  | Settled (Ok a) => (Settled (Ok a), w1, t1)
  | Settled (Throw e) =>
      let '(st2, w2, t2) := turn E (h e) w1 in (st2, w2, t1 ++ t2)
  | Suspended rest => (Suspended (try_catch rest h), w1, t1)
  end.
Proof.
  induction p as [a|e|X op k IH]; intro w; simpl.
  - reflexivity.
  - destruct (turn E (h e) w) as [[st2 w2] t2]. reflexivity.
  - destruct (answer E op w) as [[x w1] t1].
    destruct (is_await op); [reflexivity|]. rewrite IH.
    destruct (turn E (k x) w1) as [[st w2] t2].
    destruct st as [[a|e]|rest]; try reflexivity.
    destruct (turn E (h e) w2) as [[st3 w3] t3]. rewrite app_assoc. reflexivity.
Qed.

Lemma turn_lift E A (r : result A) w : turn E (lift r) w = (Settled r, w, []).
Proof. destruct r; reflexivity. Qed.

(** The caller of an [async] function is suspended in its first turn,
    whatever the function does. *)
Lemma turn_await_call E A (p : prog A) w :
  turn E (await_call p) w =
  let '(st, w1, t1) := turn E p w in
  match st with
  | Settled r => (Suspended (lift r), tick w1, t1)
  | Suspended rest => (Suspended (await_call rest), w1, t1)
  end.
Proof.
  unfold await_call. rewrite turn_bind, turn_try_catch, turn_bind.
  destruct (turn E p w) as [[st w1] t1].
  destruct st as [[a|e]|rest]; simpl; rewrite ?app_nil_r; reflexivity.
Qed.

(** What is left of a quiet program is quiet. *)
Lemma turn_quiet E A (p : prog A) :
  quiet p -> forall w rest w1 t1,
  turn E p w = (Suspended rest, w1, t1) -> quiet rest.
Proof.
  induction 1 as [a|e|X op k Hop Hk IH]; intros w rest w1 t1 H; simpl in H;
    try discriminate.
  destruct (answer E op w) as [[x wa] ta].
  destruct (is_await op).
  - injection H as <- _ _. apply Hk.
  - destruct (turn E (k x) wa) as [[st w2] t2] eqn:Ht.
    injection H as -> _ _. eapply IH. exact Ht.
Qed.

(** The first turn of the body of the [if] on the event name. *)
Lemma on_put_first_turn E msg s3 w :
  (exists e, coordinates s3 = Throw e
             /\ turn E (on_put msg s3) w = (Settled (Throw TypeError), w, []))
  \/ (exists rest,
        quiet rest
        /\ turn E (on_put msg s3) w
           = (Suspended rest, tick w,
              match coordinates s3 with
              | Ok c => [Fetch (fst c) (snd c)]
              | Throw _ => []
              end)).
Proof.
  assert (Hq : forall rest w1 t1,
             turn E (on_put msg s3) w = (Suspended rest, w1, t1) -> quiet rest)
    by (intros; eapply turn_quiet; [apply quiet_on_put|eassumption]).
  revert Hq. unfold on_put, coordinates. rewrite turn_bind, turn_lift.
  destruct (get s3 "bucket") as [b|e1] eqn:Hb.
  2:{ intros _. left. apply get_throws in Hb. subst e1. eauto. }
  cbv beta iota. rewrite turn_bind, turn_lift.
  destruct (get s3 "object") as [o|e1] eqn:Ho.
  2:{ intros _. left. apply get_throws in Ho. subst e1. eauto. }
  cbv beta iota. rewrite turn_bind, turn_await_call.
  unfold fetchLogObject. cbn [bucket logObject]. rewrite turn_bind, turn_lift.
  destruct (get b "name") as [bn|e1] eqn:Hn.
  2:{ intro Hq. right. eexists. split; [|reflexivity]. eapply Hq. reflexivity. }
  cbv beta iota. rewrite turn_bind, turn_lift.
  destruct (get o "key") as [k|e1] eqn:Hk.
  2:{ intro Hq. right. eexists. split; [|reflexivity]. eapply Hq. reflexivity. }
  cbv beta iota. intro Hq. right. eexists. split; [|reflexivity].
  eapply Hq. reflexivity.
Qed.

(** The first turn of the callback, case by case. *)
Lemma callback_first_turn E msg record w :
  (exists e, get record "eventTime" = Throw e
             /\ turn E (callback E msg record) w = (Settled (Throw e), w, []))
  \/ (exists et,
        get record "eventTime" = Ok et
        /\ match spec_accept (lastUpdated w) (Date_new E et) with
           | (false, _) =>
               turn E (callback E msg record) w
               = (Settled (Ok tt), tick w, [ReadWatermark])
           | (true, t) =>
               if is_put record then
                 exists s3,
                   get record "s3" = Ok s3
                   /\ ((exists e, coordinates s3 = Throw e
                        /\ turn E (callback E msg record) w
                           = (Settled (Throw TypeError), tick w, [ReadWatermark]))
                       \/ (exists rest : prog unit,
                             quiet rest
                             /\ turn E (callback E msg record) w
                                = (Suspended
                                     (bind rest (fun _ => perform (SetLastUpdated t))),
                                   tick (tick w),
                                   ReadWatermark ::
                                   match coordinates s3 with
                                   | Ok c => [Fetch (fst c) (snd c)]
                                   | Throw _ => []
                                   end)))
               else
                 turn E (callback E msg record) w
                 = (Settled (Ok tt),
                    {| lastUpdated := t; steps := S (S (steps w)) |},
                    [ReadWatermark; WriteWatermark t])
           end).
Proof.
  destruct (get record "eventTime") as [et|e] eqn:Hget.
  2:{ left. exists e. split; [reflexivity|].
      unfold callback. rewrite turn_bind, Hget, turn_lift. reflexivity. }
  right. exists et. split; [reflexivity|].
  unfold callback. rewrite turn_bind, Hget, turn_lift. cbv beta iota.
  rewrite turn_bind.
  change (turn E (perform GetLastUpdated) w)
    with (Settled (Ok (lastUpdated w)), tick w, [ReadWatermark]).
  cbv beta iota. unfold spec_accept.
  destruct (Date_new E et) as [t|]; [|reflexivity].
  destruct (lastUpdated w <? t)%Z; [|reflexivity].
  destruct (get_total "s3" Hget) as (s3 & Hs3).
  destruct (get_total "eventName" Hget) as (name & Hname).
  unfold accepted, is_put. rewrite Hname.
  rewrite turn_bind, Hs3, turn_lift. cbv beta iota.
  rewrite turn_bind, turn_lift. cbv beta iota.
  rewrite turn_bind.
  destruct (strict_eq_str name "ObjectCreated:Put"); [|reflexivity].
  exists s3. split; [reflexivity|].
  destruct (on_put_first_turn E msg s3 (tick w))
    as [(e & Hco & ->)|(rest & Hq & ->)].
  - left. exists e. split; [exact Hco|reflexivity].
  - right. exists rest. split; [exact Hq|reflexivity].
Qed.

(** In its first turn the callback submits nothing and logs nothing. *)
Lemma callback_turn_silent E msg record w :
  posts (trace (turn E (callback E msg record) w)) = []
  /\ logged (trace (turn E (callback E msg record) w)) = [].
Proof.
  destruct (callback_first_turn E msg record w)
    as [(e & _ & ->)|(et & _ & H)]; [split; reflexivity|].
  destruct (spec_accept (lastUpdated w) (Date_new E et)) as [[|] t].
  - destruct (is_put record).
    + destruct H as (s3 & _ & [(e & _ & ->)|(rest & _ & ->)]);
        [split; reflexivity|].
      destruct (coordinates s3); split; reflexivity.
    + rewrite H. split; reflexivity.
  - rewrite H. split; reflexivity.
Qed.

Lemma forEach_silent E msg records : forall sv,
  posts (snd (forEach E msg records sv)) = []
  /\ logged (snd (forEach E msg records sv)) = [].
Proof.
  induction records as [|record records IH]; intro sv; simpl; [auto|].
  pose proof (callback_turn_silent E msg record (world sv)) as (Hp & Hl).
  destruct (turn E (callback E msg record) (world sv)) as [[st w1] tr1].
  specialize (IH (file st sv w1)).
  destruct (forEach E msg records (file st sv w1)) as [sv2 tr2].
  unfold trace in *. simpl in *. destruct IH as (IHp & IHl).
  rewrite posts_app, logged_app, Hp, Hl, IHp, IHl. auto.
Qed.

(** X11. When the two [JSON.parse] succeed and [Records] is an array, the
    handler ends without an error and sends the status 200 exactly once,
    as the last thing of its turn, whatever the records are and whatever
    becomes of them; nothing has been submitted to the endpoint and
    nothing has been logged by then: the lines are sent after the
    notification has been acknowledged. *)
Theorem handler_acknowledges_before_any_submission (E : Env) (body : value)
    (sv : Server) (snsMessage : value) (records : list value) :
  envelope E body = Ok (snsMessage, records) ->
  outcome (post_handler E body sv) = Ok tt
  /\ exists tr,
       trace (post_handler E body sv) = tr ++ [SendStatus 200]
       /\ statuses tr = [] /\ posts tr = [] /\ logged tr = [].
Proof.
  intro H. unfold post_handler. rewrite H.
  pose proof (forEach_no_status E snsMessage records sv) as Hst.
  pose proof (forEach_silent E snsMessage records sv) as (Hp & Hl).
  destruct (forEach E snsMessage records sv) as [sv1 t1].
  split; [reflexivity|]. exists t1. simpl in *. auto.
Qed.

Lemma handler_acknowledges_before_any_submission_witness :
  envelope E (body_of msg_put_ok) = Ok (msg_put_ok, [put t1 ok_key])
  /\ outcome (post_handler E (body_of msg_put_ok) sv0) = Ok tt.
Proof.
  assert (H : envelope E (body_of msg_put_ok) = Ok (msg_put_ok, [put t1 ok_key]))
    by (vm_compute; reflexivity).
  split; [exact H|].
  exact (proj1 (handler_acknowledges_before_any_submission sv0 H)).
Defined.

(** X12. When the parsed message has no array under [Records] (the
    property is missing, or is not an array), the handler throws a
    TypeError: its promise is rejected, no record is looked at and no
    status is sent. *)
Theorem message_without_records_gets_no_response (E : Env) (body : value)
    (sv : Server) (newBody message snsMessage : value) :
  JSON_parse E body = Ok newBody ->
  get newBody "Message" = Ok message ->
  JSON_parse E message = Ok snsMessage ->
  (forall records, get snsMessage "Records" <> Ok (VArr records)) ->
  post_handler E body sv = (Throw TypeError, sv, []).
Proof.
  intros H1 H2 H3 H4. unfold post_handler, envelope. rewrite H1, H2, H3.
  destruct (get snsMessage "Records") as [v|e] eqn:Hr.
  - destruct v; try reflexivity. exfalso. eapply H4. reflexivity.
  - apply get_throws in Hr. subst e. reflexivity.
Qed.

Lemma message_without_records_gets_no_response_witness :
  post_handler E_test (body_of test_event) sv0 = (Throw TypeError, sv0, []).
Proof.
  apply (@message_without_records_gets_no_response E_test (body_of test_event)
           sv0 (notification test_event) (VStr (to_json test_event)) test_event);
    try (vm_compute; reflexivity).
  intros records H. vm_compute in H. discriminate H.
Defined.

(** ** The watermark between turns *)

(** The first turn of the callback for an ObjectCreated:Put record. *)
Lemma put_callback_turn E msg record w :
  is_put record = true ->
  lastUpdated (after (turn E (callback E msg record) w)) = lastUpdated w
  /\ writes (trace (turn E (callback E msg record) w)) = []
  /\ fetches (trace (turn E (callback E msg record) w))
     = first_fetch E (lastUpdated w) record.
Proof.
  intro Hput. unfold first_fetch.
  destruct (callback_first_turn E msg record w)
    as [(e & Hget & ->)|(et & Hget & H)]; rewrite Hget.
  - repeat split.
  - rewrite Hput in H.
    destruct (spec_accept (lastUpdated w) (Date_new E et)) as [[|] t].
    + destruct H as (s3 & -> & [(e & Hco & ->)|(rest & _ & ->)]).
      * rewrite Hco. repeat split.
      * destruct (coordinates s3) as [[bn k]|e]; repeat split.
    + rewrite H. repeat split.
Qed.

Lemma file_world st sv w : world (file st sv w) = w.
Proof. destruct st as [[[]|e]|rest]; reflexivity. Qed.

Lemma forEach_put E msg records :
  Forall (fun record => is_put record = true) records ->
  forall sv,
    lastUpdated (world (fst (forEach E msg records sv)))
    = lastUpdated (world sv)
    /\ writes (snd (forEach E msg records sv)) = []
    /\ fetches (snd (forEach E msg records sv))
       = flat_map (first_fetch E (lastUpdated (world sv))) records.
Proof.
  induction 1 as [|record records Hput _ IH]; intro sv; simpl; [auto|].
  pose proof (put_callback_turn E msg (world sv) Hput) as (Hl & Hw & Hf).
  destruct (turn E (callback E msg record) (world sv)) as [[st w1] tr1].
  specialize (IH (file st sv w1)). rewrite file_world in IH.
  destruct (forEach E msg records (file st sv w1)) as [sv2 tr2].
  unfold after, trace in *. simpl in *. destruct IH as (IHl & IHw & IHf).
  rewrite writes_app, fetches_app, Hw, Hf, IHw, IHf, IHl, Hl. auto.
Qed.

(** X13. Within one notification there is no deduplication between
    ObjectCreated:Put records: no call of the callback advances the
    watermark during the turn of the handler, so every record is compared
    with the watermark of the start, and every record newer than it whose
    bucket and key can be read is fetched, duplicates included. *)
Theorem put_records_are_all_compared_with_the_same_watermark (E : Env)
    (body : value) (sv : Server) (snsMessage : value) (records : list value) :
  envelope E body = Ok (snsMessage, records) ->
  Forall (fun record => is_put record = true) records ->
  lastUpdated (world (after (post_handler E body sv)))
  = lastUpdated (world sv)
  /\ writes (trace (post_handler E body sv)) = []
  /\ fetches (trace (post_handler E body sv))
     = flat_map (first_fetch E (lastUpdated (world sv))) records.
Proof.
  intros Henv Hput. unfold post_handler. rewrite Henv.
  pose proof (forEach_put E snsMessage Hput sv) as (Hl & Hw & Hf).
  destruct (forEach E snsMessage records sv) as [sv1 t1].
  unfold after, trace. simpl in *.
  rewrite writes_app, fetches_app, Hw, Hf.
  change (fetches [SendStatus 200]) with (@nil (value * value)).
  rewrite !app_nil_r. repeat split. exact Hl.
Qed.

Lemma put_records_are_all_compared_with_the_same_watermark_witness :
  envelope E (body_of msg_put_twice)
  = Ok (msg_put_twice, [put t1 ok_key; put t1 ok_key])
  /\ fetches (trace (post_handler E (body_of msg_put_twice) sv0))
     = flat_map (first_fetch E (lastUpdated w0)) [put t1 ok_key; put t1 ok_key].
Proof.
  assert (H : envelope E (body_of msg_put_twice)
              = Ok (msg_put_twice, [put t1 ok_key; put t1 ok_key]))
    by (vm_compute; reflexivity).
  split; [exact H|].
  assert (Hput : Forall (fun record => is_put record = true)
                   [put t1 ok_key; put t1 ok_key])
    by (repeat constructor).
  exact (proj2 (proj2
    (put_records_are_all_compared_with_the_same_watermark sv0 H Hput))).
Defined.

(** X14. The write of line 176 is not compared with anything: a call of
    the callback that was suspended (an accepted ObjectCreated:Put event)
    sets the watermark to the time of its own event when it completes, in
    whatever state the process then is, also when the watermark has
    meanwhile gone past that time. *)
Theorem completed_call_overwrites_the_watermark (E : Env) (msg record : value)
    (w : World) (rest : prog unit) (w1 : World) (t1 : list event) :
  turn E (callback E msg record) w = (Suspended rest, w1, t1) ->
  exists t,
    event_time E record = Some t
    /\ (lastUpdated w < t)%Z
    /\ lastUpdated w1 = lastUpdated w
    /\ forall w2 w3 t3,
         run E rest w2 = (Ok tt, w3, t3) ->
         lastUpdated w3 = t /\ writes t3 = [t].
Proof.
  intro Hturn.
  destruct (callback_first_turn E msg record w)
    as [(e & _ & H)|(et & Hget & H)]; [rewrite Hturn in H; discriminate|].
  unfold event_time. rewrite Hget.
  destruct (spec_accept (lastUpdated w) (Date_new E et)) as [[|] t] eqn:Hacc;
    [|rewrite Hturn in H; discriminate].
  destruct (spec_accept_true Hacc) as (Hdate & Hlt).
  destruct (is_put record); [|rewrite Hturn in H; discriminate].
  destruct H as (s3 & _ & [(e & _ & H)|(q & Hq & H)]);
    [rewrite Hturn in H; discriminate|].
  rewrite Hturn in H. injection H as -> -> _.
  exists t. split; [exact Hdate|]. split; [exact Hlt|]. split; [reflexivity|].
  intros w2 w3 t3. rewrite run_bind.
  destruct (run E q w2) as [[r wq] tq] eqn:Hrun.
  destruct (quiet_run Hq Hrun) as (_ & Hw & _).
  destruct r as [[]|e]; [|discriminate].
  rewrite run_perform. simpl. intro H. injection H as <- <-.
  rewrite writes_app, Hw. split; reflexivity.
Qed.

Lemma is_suspended_pending x :
  is_suspended x = true -> x = (Suspended (pending_of x), after x, trace x).
Proof.
  destruct x as [[[r|rest] w] t]; [discriminate|reflexivity].
Qed.

Lemma completed_call_overwrites_the_watermark_witness :
  let first := turn E (callback E msg_put_ok (put t1 ok_key)) w0 in
  is_suspended first = true
  /\ lastUpdated w2 = 1672531202000%Z
  /\ outcome (run E (pending_of first) w2) = Ok tt
  /\ lastUpdated (after (run E (pending_of first) w2)) = 1672531201000%Z.
Proof.
  intro first.
  assert (Hs : is_suspended first = true) by (vm_compute; reflexivity).
  assert (Hok : outcome (run E (pending_of first) w2) = Ok tt)
    by (vm_compute; reflexivity).
  split; [exact Hs|]. split; [reflexivity|]. split; [exact Hok|].
  destruct (completed_call_overwrites_the_watermark (is_suspended_pending Hs))
    as (t & Ht & _ & _ & Hrun).
  assert (Ht1 : t = 1672531201000%Z) by (vm_compute in Ht; congruence).
  destruct (run E (pending_of first) w2) as [[r w3] t3] eqn:Hr.
  unfold outcome, after in *. simpl in Hok |- *. subst r.
  destruct (Hrun w2 w3 t3 Hr) as (Hl & _). congruence.
Defined.

(** One call of the callback, run to its end, leaves the watermark or
    raises it. *)
Lemma callback_run_raises E msg record w :
  (lastUpdated (after (run E (callback E msg record) w)) = lastUpdated w
   /\ writes (trace (run E (callback E msg record) w)) = [])
  \/ (exists t, (lastUpdated w < t)%Z
                /\ lastUpdated (after (run E (callback E msg record) w)) = t
                /\ writes (trace (run E (callback E msg record) w)) = [t]).
Proof.
  destruct (get record "eventTime") as [et|e] eqn:Hget.
  - destruct (callback_trace E msg w Hget)
      as (r & w' & mid & fin & -> & _ & Hwr & Hfin).
    unfold after, trace. simpl fst. simpl snd.
    change (ReadWatermark :: mid ++ fin) with ([ReadWatermark] ++ mid ++ fin).
    rewrite !writes_app, Hwr.
    destruct Hfin as [(-> & Hl & _)|(t & -> & _ & Hl & Hacc)].
    + left. split; [exact Hl|reflexivity].
    + right. exists t. apply spec_accept_true in Hacc.
      destruct Hacc as [_ Hlt]. repeat split; assumption.
  - left. unfold callback. rewrite run_bind, Hget, run_lift. split; reflexivity.
Qed.

(** X15. When events are handled one after the other, each to its end,
    the watermark never goes back, whatever happens to the events
    (failed fetches and rejected calls included): every time written is
    greater than the watermark before it, so the times written are
    strictly increasing and the last watermark is at least the first. *)
Theorem watermark_never_goes_back_between_whole_events (E : Env)
    (events : list (value * value)) (w : World) :
  (lastUpdated w <= lastUpdated (after (handle_all E events w)))%Z
  /\ Forall (fun z => (lastUpdated w < z)%Z)
       (writes (trace (handle_all E events w)))
  /\ Forall (fun z => (z <= lastUpdated (after (handle_all E events w)))%Z)
       (writes (trace (handle_all E events w)))
  /\ StronglySorted Z.lt (writes (trace (handle_all E events w))).
Proof.
  revert w. induction events as [|[msg record] events IH]; intro w; simpl.
  - unfold after, trace. simpl. repeat split; try constructor. lia.
  - pose proof (callback_run_raises E msg record w) as Hone.
    destruct (run E (callback E msg record) w) as [[r w1] t1].
    specialize (IH w1).
    destruct (handle_all E events w1) as [[rs w2] t2].
    unfold after, trace in *. simpl in *.
    destruct IH as (Hle & Hgt & Hmax & Hsorted).
    rewrite writes_app.
    destruct Hone as [(Hl & ->)|(t & Hlt & Hl & ->)]; simpl.
    + rewrite Hl in *. repeat split; assumption.
    + subst t. split; [lia|]. split.
      * constructor; [exact Hlt|].
        eapply Forall_impl; [|exact Hgt]. simpl. intros z Hz. lia.
      * split; [constructor; [exact Hle|exact Hmax]|].
        constructor; [exact Hsorted|exact Hgt].
Qed.
